(** * Z3CHCInterface: counterexample-graph extraction from Spacer proofs

    A shallow embedding of [libsmtutil/Z3CHCInterface.cpp]: the rule
    bookkeeping of [addRule], the verdict mapping of [query], and the
    iterative traversal [cexGraph] that turns a ground refutation into an
    implication graph, together with the properties its specification
    states about them. *)

From Stdlib Require Import ZArith String List Lia.
From stdpp Require Import base option list gmap strings fin_maps fin_sets.

Set Warnings "-register-all,-clear-no-such-hyp".
Local Open Scope Z_scope.

(** ** Exceptions

    The source raises two unrelated kinds of exception: [smtAssert] throws
    the compiler's own logic error, and every call into the engine may
    throw [z3::exception].  Only the latter is caught, and only in
    [query]. *)

(** The [smtAssert] sites of the file, named after the function they are in. *)
Inductive assert_site : Type :=
  | cexGraph_proof_is_app        (* smtAssert(_proof.is_app()) *)
  | cexGraph_root_fact_false     (* smtAssert(fact(_proof).decl().decl_kind() == Z3_OP_FALSE) *)
  | cexGraph_popped_in_nodes     (* smtAssert(graph.nodes.count(proofNode.id())) *)
  | cexGraph_hyper_has_args      (* smtAssert(proofNode.num_args() > 0) *)
  | fact_is_app                  (* smtAssert(_node.is_app()) in fact *)
  | name_is_app                  (* smtAssert(_predicate.is_app()) in name *)
  | arguments_is_app             (* smtAssert(_predicate.is_app()) in arguments *)
  | external_assert.             (* an assertion of a collaborator outside this file *)

(** Error codes the engine attaches to a [z3::exception]. *)
Inductive Z3_error_code : Type :=
  | Z3_IOB            (* index out of bounds *)
  | Z3_INVALID_ARG    (* e.g. an application accessor used on a non-application *)
  | Z3_EXCEPTION.     (* any other engine failure *)

Inductive exn : Type :=
  | smtAssertFailed (site : assert_site)
  | z3_exception (code : Z3_error_code).

Inductive result (A : Type) : Type :=
  | Ok (a : A)
  | Throw (e : exn).
Arguments Ok {A} a.
Arguments Throw {A} e.

#[global] Instance assert_site_eq_dec : EqDecision assert_site.
Proof. solve_decision. Defined.
#[global] Instance Z3_error_code_eq_dec : EqDecision Z3_error_code.
Proof. solve_decision. Defined.
#[global] Instance exn_eq_dec : EqDecision exn.
Proof. solve_decision. Defined.
#[global] Instance result_eq_dec {A : Type} `{EqDecision A} :
  EqDecision (result A).
Proof. solve_decision. Defined.

#[global] Instance result_ret : MRet result := fun A a => Ok a.
#[global] Instance result_bind : MBind result := fun A B k m =>
  match m with
  | Ok a => k a
  | Throw e => Throw e
  end.

(** Modelled from the spec: the [smtAssert] macro, declared outside this
    file: a contract violation is fatal and is not an engine exception. *)
Definition smtAssert (cond : bool) (site : assert_site) : result unit :=
  if cond then Ok tt else Throw (smtAssertFailed site).

(** [unsigned] arithmetic: results are reduced modulo 2^32. *)
Definition wrap32 (z : Z) : Z := z mod 2 ^ 32.

(** [for (unsigned i = lo; i < hi; ++i) body]: the body runs for
    [i = lo, lo+1, ..., hi-1], i.e. [hi - lo] times (not at all when
    [hi <= lo]); an exception in the body leaves the loop. *)
Fixpoint for_range {S : Type} (count : nat) (i : Z)
    (body : Z → S → result S) (s : S) : result S :=
  match count with
  | O => Ok s
  | Datatypes.S count' => s' ← body i s; for_range count' (i + 1) body s'
  end.

Definition for_loop {S : Type} (lo hi : Z) (body : Z → S → result S) (s : S)
    : result S :=
  for_range (Z.to_nat (hi - lo)) lo body s.

(** ** The engine's terms, as seen through the C++ API *)

Module z3.

Inductive Z3_decl_kind : Type :=
  | Z3_OP_TRUE
  | Z3_OP_FALSE
  | Z3_OP_ANUM
  | Z3_OP_UNINTERPRETED
  | Z3_OP_PR_ASSERTED
  | Z3_OP_PR_MODUS_PONENS
  | Z3_OP_PR_HYPER_RESOLVE.

#[global] Instance Z3_decl_kind_eq_dec : EqDecision Z3_decl_kind.
Proof. solve_decision. Defined.

(** [func_decl]: what the file reads of a declaration is its kind and
    [name().str()]. *)
Record func_decl : Type := mk_func_decl {
  decl_kind : Z3_decl_kind;
  symbol : string
}.

(** [z3::expr]: a handle on a hash-consed term.  Every term carries the
    numeric id the context gave it; a sub-proof shared by several parents
    is the same term, with the same id, under each of them.  Applications
    (numerals included) answer [is_app]; bound variables and quantifiers
    do not. *)
Inductive expr : Type :=
  | App (eid : N) (d : func_decl) (args : list expr)
  | Var (eid : N) (index : N)
  | Quantifier (eid : N) (body : expr).

Definition id (e : expr) : N :=
  match e with
  | App i _ _ | Var i _ | Quantifier i _ => i
  end.

Definition is_app (e : expr) : bool :=
  match e with
  | App _ _ _ => true
  | _ => false
  end.

(** The application accessors check their argument and report misuse
    through the context's error handler, which throws. *)
Definition decl (e : expr) : result func_decl :=
  match e with
  | App _ d _ => Ok d
  | _ => Throw (z3_exception Z3_INVALID_ARG)
  end.

Definition num_args (e : expr) : result Z :=
  match e with
  | App _ _ args => Ok (Z.of_nat (length args))
  | _ => Throw (z3_exception Z3_INVALID_ARG)
  end.

Definition arg (e : expr) (i : Z) : result expr :=
  match e with
  | App _ _ args =>
      if (i <? 0) || (Z.of_nat (length args) <=? i)
      then Throw (z3_exception Z3_IOB)
      else match args !! Z.to_nat i with
           | Some a => Ok a
           | None => Throw (z3_exception Z3_IOB)
           end
  | _ => Throw (z3_exception Z3_INVALID_ARG)
  end.

Inductive check_result : Type := unsat | sat | unknown.

(** [z3::context]: the owner of the terms.  Terms are built through it;
    the one builder this file calls is [z3::forall], which closes a body
    over a vector of constants. *)
Record context : Type := mk_context {
  forall_const : list expr → expr → expr
}.

End z3.

(** ** Collaborators

    The printer behind [expr::to_string] belongs to the engine.  The file
    only passes its results on, so it is left abstract. *)

(** A lemma depends on the section's variables and hypotheses that its
    statement names, and on others only where its proof says so. *)
Set Default Proof Using "Type".

Section Z3CHCInterface.

Variable to_string : z3.expr → string.

(** ** [fact], [name], [arguments] *)

Definition fact (_node : z3.expr) : result z3.expr :=
  _ ← smtAssert (z3.is_app _node) fact_is_app;
  n ← z3.num_args _node;
  if n =? 0 then Ok _node
  else z3.arg _node (wrap32 (n - 1)).

Definition name (_predicate : z3.expr) : result string :=
  _ ← smtAssert (z3.is_app _predicate) name_is_app;
  d ← z3.decl _predicate;
  Ok (z3.symbol d).

Definition arguments (_predicate : z3.expr) : result (list string) :=
  _ ← smtAssert (z3.is_app _predicate) arguments_is_app;
  n ← z3.num_args _predicate;
  for_loop 0 n
    (λ i args, a ← z3.arg _predicate i; Ok (args ++ [to_string a]))
    [].

(** ** [CexGraph] and the traversal state *)

(** Modelled from the spec: [CHCSolverInterface::CexGraph], declared in
    the interface's header: a map from node id to the pair of a predicate
    name and its rendered arguments, and a map from node id to the ordered
    list of the ids of its premises. *)
Record CexGraph : Type := mk_CexGraph {
  nodes : gmap N (string * list string);
  edges : gmap N (list N)
}.

Definition empty_graph : CexGraph := {| nodes := ∅; edges := ∅ |}.

(** The locals of [cexGraph]; the head of [proofStack] is the top. *)
Record state : Type := mk_state {
  graph : CexGraph;
  proofStack : list z3.expr;
  visited : gset N
}.

(** [graph.edges[k]]: [operator[]] reads an absent key as the empty vector. *)
Definition edges_at (g : CexGraph) (k : N) : list N :=
  default [] (edges g !! k).

(** [{name(fact(e)), arguments(fact(e))}] *)
Definition node_label (e : z3.expr) : result (string * list string) :=
  f ← fact e;
  nm ← name f;
  f' ← fact e;
  args ← arguments f';
  Ok (nm, args).

(** The body of the [for] loop over the premises of [proofNode], after
    [z3::expr child = proofNode.arg(i)]. *)
Definition premise_visit (proofNode child : z3.expr) (st : state)
    : result state :=
  let st1 :=
    if decide (z3.id child ∈ visited st) then st
    else {| graph := graph st;
            proofStack := child :: proofStack st;
            visited := {[ z3.id child ]} ∪ visited st |} in
  g2 ← (if decide (is_Some (nodes (graph st1) !! z3.id child))
        then Ok (graph st1)
        else
          lbl ← node_label child;
          Ok {| nodes := <[ z3.id child := lbl ]> (nodes (graph st1));
                edges := <[ z3.id child := [] ]> (edges (graph st1)) |});
  Ok {| graph :=
          {| nodes := nodes g2;
             edges := <[ z3.id proofNode :=
                          edges_at g2 (z3.id proofNode) ++ [z3.id child] ]>
                        (edges g2) |};
        proofStack := proofStack st1;
        visited := visited st1 |}.

Definition premise_step (proofNode : z3.expr) (i : Z) (st : state)
    : result state :=
  child ← z3.arg proofNode i;
  premise_visit proofNode child st.

(** Is the popped node a hyper-resolution step?  ([&&] short-circuits, so
    [decl] is only asked of applications.) *)
Definition is_hyper_resolve (proofNode : z3.expr) : result bool :=
  if z3.is_app proofNode then
    d ← z3.decl proofNode;
    Ok (bool_decide (z3.decl_kind d = z3.Z3_OP_PR_HYPER_RESOLVE))
  else Ok false.

(** One iteration of the [while] loop, entered with a non-empty stack. *)
Definition loop_body (st : state) : result state :=
  match proofStack st with
  | [] => Ok st
  | proofNode :: rest =>
      _ ← smtAssert
            (bool_decide (is_Some (nodes (graph st) !! z3.id proofNode)))
            cexGraph_popped_in_nodes;
      let st0 := {| graph := graph st; proofStack := rest;
                    visited := visited st |} in
      hr ← is_hyper_resolve proofNode;
      if hr : bool then
        n ← z3.num_args proofNode;
        _ ← smtAssert (0 <? n) cexGraph_hyper_has_args;
        for_loop 1 (wrap32 (n - 1)) (premise_step proofNode) st0
      else Ok st0
  end.

(** [while (!proofStack.empty())]: [None] when [fuel] iterations were
    not enough to empty the stack. *)
Fixpoint cexGraph_loop (fuel : nat) (st : state) : option (result state) :=
  match proofStack st with
  | [] => Some (Ok st)
  | _ :: _ =>
      match fuel with
      | O => None
      | Datatypes.S fuel' =>
          match loop_body st with
          | Ok st' => cexGraph_loop fuel' st'
          | Throw e => Some (Throw e)
          end
      end
  end.

(** The two assertions at the head of [cexGraph]. *)
Definition cexGraph_entry (_proof : z3.expr) : result unit :=
  _ ← smtAssert (z3.is_app _proof) cexGraph_proof_is_app;
  f ← fact _proof;
  d ← z3.decl f;
  smtAssert (bool_decide (z3.decl_kind d = z3.Z3_OP_FALSE))
    cexGraph_root_fact_false.

(** From [proofStack.push(_proof.arg(0))] to [visited.insert(root.id())]. *)
Definition cexGraph_seed (_proof : z3.expr) : result state :=
  root ← z3.arg _proof 0;
  lbl ← node_label root;
  Ok {| graph := {| nodes := {[ z3.id root := lbl ]}; edges := ∅ |};
        proofStack := [root];
        visited := {[ z3.id root ]} |}.

Definition cexGraph_init (_proof : z3.expr) : result state :=
  _ ← cexGraph_entry _proof;
  cexGraph_seed _proof.

Definition cexGraph_run (fuel : nat) (_proof : z3.expr)
    : option (result state) :=
  match cexGraph_init _proof with
  | Ok st => cexGraph_loop fuel st
  | Throw e => Some (Throw e)
  end.

Definition cexGraph (fuel : nat) (_proof : z3.expr)
    : option (result CexGraph) :=
  match cexGraph_run fuel _proof with
  | Some (Ok st) => Some (Ok (graph st))
  | Some (Throw e) => Some (Throw e)
  | None => None
  end.

(** ** The interface object: registry, solver, [addRule] and [query] *)

(** Modelled from the spec: [smtutil::Expression], which the formula
    layer declares: an immutable logical term, a symbol name applied to
    argument terms (its sort is not read in this file). *)
Inductive Expression : Type :=
  | mk_Expression (name : string) (arguments : list Expression).

(** Modelled from the spec: [m_z3Interface], the formula layer, which is
    outside this file.  [constants()] gives the currently declared free
    variables, a [std::map<std::string, z3::expr>] kept here as its
    entries in iteration (key) order; [toZ3Expr] is the translation, which
    may throw. *)
Record Z3Interface : Type := mk_Z3Interface {
  constants : list (string * z3.expr);
  toZ3Expr : Expression → result z3.expr
}.

(** [m_solver], a [z3::fixedpoint]: the rules handed to it so far, each
    under its symbol, and the engine's answers to [query] and
    [get_answer]. *)
Record fixedpoint : Type := mk_fixedpoint {
  rules : list (z3.expr * string);
  fp_query : z3.expr → result z3.check_result;
  get_answer : z3.expr → result z3.expr
}.

Record Z3CHCInterface : Type := mk_Z3CHCInterface {
  m_z3Interface : Z3Interface;
  m_context : z3.context;
  m_solver : fixedpoint
}.

(** [std::string::c_str]: the characters up to the first NUL. *)
Fixpoint c_str (s : string) : string :=
  match s with
  | EmptyString => EmptyString
  | String c s' =>
      if Ascii.eqb c Ascii.zero then EmptyString else String c (c_str s')
  end.

(** [m_solver.add_rule(rule, m_context->str_symbol(sym))] *)
Definition add_rule (self : Z3CHCInterface) (rule : z3.expr) (sym : string)
    : Z3CHCInterface :=
  {| m_z3Interface := m_z3Interface self;
     m_context := m_context self;
     m_solver :=
       {| rules := rules (m_solver self) ++ [(rule, sym)];
          fp_query := fp_query (m_solver self);
          get_answer := get_answer (m_solver self) |} |}.

Definition addRule (self : Z3CHCInterface) (_expr : Expression)
    (_name : string) : result Z3CHCInterface :=
  rule ← toZ3Expr (m_z3Interface self) _expr;
  if bool_decide (constants (m_z3Interface self) = [])
  then Ok (add_rule self rule (c_str _name))
  else
    let variables :=
      foldl (λ vs var, vs ++ [var.2]) [] (constants (m_z3Interface self)) in
    let boundRule := z3.forall_const (m_context self) variables rule in
    Ok (add_rule self boundRule (c_str _name)).

(** Modelled from the spec: the [CheckResult] enumeration, declared
    outside this file, with the four results the specification lists. *)
Inductive CheckResult : Type :=
  | SATISFIABLE | UNSATISFIABLE | UNKNOWN | ERROR.

(** The [try] block of [query].  The [sat] case returns from inside the
    block with its own, local [cex]. *)
Definition query_try (fuel : nat) (self : Z3CHCInterface)
    (_expr : Expression) : option (result (CheckResult * CexGraph)) :=
  match (z3Expr ← toZ3Expr (m_z3Interface self) _expr;
         verdict ← fp_query (m_solver self) z3Expr;
         Ok (z3Expr, verdict)) with
  | Throw e => Some (Throw e)
  | Ok (z3Expr, z3.sat) =>
      match get_answer (m_solver self) z3Expr with
      | Throw e => Some (Throw e)
      | Ok proof =>
          match cexGraph fuel proof with
          | None => None
          | Some (Throw e) => Some (Throw e)
          | Some (Ok cex) => Some (Ok (SATISFIABLE, cex))
          end
      end
  | Ok (_, z3.unsat) => Some (Ok (UNSATISFIABLE, empty_graph))
  | Ok (_, z3.unknown) => Some (Ok (UNKNOWN, empty_graph))
  end.

(** [catch (z3::exception const&)]: assertion failures pass through. *)
Definition catch_z3_exception {A : Type} (m : result A)
    (handler : Z3_error_code → result A) : result A :=
  match m with
  | Throw (z3_exception code) => handler code
  | _ => m
  end.

Definition query (fuel : nat) (self : Z3CHCInterface) (_expr : Expression)
    : option (result (CheckResult * CexGraph)) :=
  match query_try fuel self _expr with
  | None => None
  | Some r => Some (catch_z3_exception r (λ _, Ok (ERROR, empty_graph)))
  end.

(** ** Vocabulary for the properties of the traversal *)

(** Running a fallible step over a list, left to right. *)
Fixpoint foldlM {S A : Type} (f : A → S → result S) (l : list A) (s : S)
    : result S :=
  match l with
  | [] => Ok s
  | a :: l' => s' ← f a s; foldlM f l' s'
  end.

Definition is_hyper_resolution (e : z3.expr) : bool :=
  match e with
  | z3.App _ d _ => bool_decide (z3.decl_kind d = z3.Z3_OP_PR_HYPER_RESOLVE)
  | _ => false
  end.

(** The premises of a node, in the specification's words: for a
    hyper-resolution application with [k] arguments, the arguments at
    positions [1 .. k-2]; any other node has none. *)
Definition premises (e : z3.expr) : list z3.expr :=
  match e with
  | z3.App _ d args =>
      if bool_decide (z3.decl_kind d = z3.Z3_OP_PR_HYPER_RESOLVE)
      then take (length args - 2)%nat (drop 1%nat args)
      else []
  | _ => []
  end.

(** The children the [for] loop of the source fetches for a popped
    hyper-resolution node: positions [1] up to, not including,
    [num_args() - 1] as an [unsigned]. *)
Definition loop_premises (proofNode : z3.expr) : list z3.expr :=
  match proofNode with
  | z3.App _ _ args =>
      take (Z.to_nat (wrap32 (Z.of_nat (length args) - 1) - 1))
           (drop 1%nat args)
  | _ => []
  end.

(** The children visited when [proofNode] is popped. *)
Definition traversed (proofNode : z3.expr) : list z3.expr :=
  if is_hyper_resolution proofNode then loop_premises proofNode else [].

(** Nodes reached from [r] along premises. *)
Inductive reach (r : z3.expr) : z3.expr → Prop :=
  | reach_root : reach r r
  | reach_premise x c : reach r x → c ∈ premises x → reach r c.

(** Argument counts fit the [unsigned] that [num_args] returns. *)
Definition arity_u32 (e : z3.expr) : Prop :=
  match e with
  | z3.App _ _ args => Z.of_nat (length args) < 2 ^ 32
  | _ => True
  end.

(** A proof DAG below [r]: ids identify nodes (hash-consing), and
    argument counts are [unsigned]. *)
Definition proof_dag (r : z3.expr) : Prop :=
  (∀ a b, reach r a → reach r b → z3.id a = z3.id b → a = b) ∧
  (∀ x, reach r x → arity_u32 x).

(** The state after exactly [n] iterations of the [while] loop, when the
    loop runs that long. *)
Fixpoint loop_steps (n : nat) (st : state) : option state :=
  match n with
  | O => Some st
  | Datatypes.S n' =>
      match proofStack st with
      | [] => None
      | _ :: _ =>
          match loop_body st with
          | Ok st' => loop_steps n' st'
          | Throw _ => None
          end
      end
  end.

(** The ids of the nodes popped by the first [n] iterations, in order. *)
Fixpoint popped_ids (n : nat) (st : state) : list N :=
  match n with
  | O => []
  | Datatypes.S n' =>
      match proofStack st with
      | [] => []
      | proofNode :: _ =>
          z3.id proofNode ::
          match loop_body st with
          | Ok st' => popped_ids n' st'
          | Throw _ => []
          end
      end
  end.

(** All ids below a term. *)
Fixpoint subterm_ids (e : z3.expr) : gset N :=
  match e with
  | z3.App i _ args => {[ i ]} ∪ ⋃ (map subterm_ids args)
  | z3.Var i _ => {[ i ]}
  | z3.Quantifier i body => {[ i ]} ∪ subterm_ids body
  end.

(** Iterations that always suffice for the proof [_proof]. *)
Definition fuel_bound (_proof : z3.expr) : nat :=
  Datatypes.S (2 * size (subterm_ids _proof)).

(** The counter of the termination argument: nodes waiting on the stack,
    and twice the ids of [U] not yet visited. *)
Definition potential (U : gset N) (st : state) : nat :=
  (length (proofStack st) + 2 * size (U ∖ visited st))%nat.

Definition pop (st : state) : state :=
  {| graph := graph st; proofStack := tail (proofStack st);
     visited := visited st |}.

(** No dangling edges: every id in an edge list is a key of the node map. *)
Definition no_dangling (g : CexGraph) : Prop :=
  ∀ k l, edges g !! k = Some l → ∀ c, c ∈ l → is_Some (nodes g !! c).

(** Every node waiting on the stack is a key of the node map. *)
Definition stack_in_nodes (st : state) : Prop :=
  ∀ x, x ∈ proofStack st → is_Some (nodes (graph st) !! z3.id x).

(** Everything below the nodes on the stack lies in [U]. *)
Definition stack_within (U : gset N) (st : state) : Prop :=
  ∀ x, x ∈ proofStack st → subterm_ids x ⊆ U.

(** With [popped] the ids popped so far: no id occurs twice among the
    nodes popped and the nodes waiting, and these are the visited ids. *)
Definition pushed_once (popped : list N) (st : state) : Prop :=
  NoDup (popped ++ map z3.id (proofStack st)) ∧
  ∀ i, i ∈ popped ++ map z3.id (proofStack st) ↔ i ∈ visited st.

(** The invariant of the [while] loop on the proof DAG below [r].  [cur]
    is [None] between iterations; inside one it is the popped node with
    the premises visited so far. *)
Record traversal_inv (r : z3.expr) (cur : option (z3.expr * list z3.expr))
    (st : state) : Prop := mk_traversal_inv {
  inv_stack_reach : ∀ x, x ∈ proofStack st → reach r x;
  inv_stack_nodup : NoDup (map z3.id (proofStack st));
  inv_stack_visited : ∀ x, x ∈ proofStack st → z3.id x ∈ visited st;
  inv_stack_edges :
    ∀ x, x ∈ proofStack st → edges_at (graph st) (z3.id x) = [];
  inv_nodes_visited : dom (nodes (graph st)) = visited st;
  inv_visited_reach : ∀ i, i ∈ visited st → ∃ x, reach r x ∧ z3.id x = i;
  inv_labels :
    ∀ x, reach r x → z3.id x ∈ visited st →
         ∃ lbl, node_label x = Ok lbl ∧
                nodes (graph st) !! z3.id x = Some lbl;
  inv_edges_visited :
    ∀ k, k ∉ visited st → edges_at (graph st) k = [];
  inv_done :
    ∀ x, reach r x → z3.id x ∈ visited st →
         z3.id x ∉ map z3.id (proofStack st) →
         (∃ pre, cur = Some (x, pre)) ∨
         (edges_at (graph st) (z3.id x) = map z3.id (premises x) ∧
          ∀ c, c ∈ premises x → z3.id c ∈ visited st);
  inv_cur :
    ∀ X pre, cur = Some (X, pre) →
             reach r X ∧ z3.id X ∈ visited st ∧
             (z3.id X ∉ map z3.id (proofStack st)) ∧
             edges_at (graph st) (z3.id X) = map z3.id pre ∧
             ∀ c, c ∈ pre → z3.id c ∈ visited st;
  inv_root : z3.id r ∈ visited st
}.

(** [a] occurs in [l] exactly once. *)
Definition occurs_once {A : Type} (a : A) (l : list A) : Prop :=
  ∃ l1 l2, l = l1 ++ a :: l2 ∧ (a ∉ l1) ∧ (a ∉ l2).

(** The number of entries of [l] equal to [p]. *)
Definition occurrences (p : N) (l : list N) : nat :=
  length (filter (λ k, k = p) l).

(** The number of edges from [a] to [p], and of edges into [p] from all
    edge lists of the graph. *)
Definition edge_count (g : CexGraph) (a p : N) : nat :=
  occurrences p (edges_at g a).

Definition edges_into (g : CexGraph) (p : N) : nat :=
  sum_list_with (λ kl, occurrences p kl.2) (map_to_list (edges g)).

(** The number of premise positions at which [X] lists [P]; nodes are
    compared by id, which identifies them in a proof DAG. *)
Definition premise_positions (X P : z3.expr) : nat :=
  occurrences (z3.id P) (map z3.id (premises X)).

(** ** A worked example

    The refutation of a query reached through two rules that share one
    premise: [ex_A] and [ex_B] are hyper-resolution steps over the same
    sub-proof [ex_P], and [ex_Q] resolves the query from both. *)

Definition ex_to_string (e : z3.expr) : string :=
  match e with
  | z3.App _ d _ => z3.symbol d
  | z3.Var _ _ => "(:var)"
  | z3.Quantifier _ _ => "(forall)"
  end.

Definition ex_context : z3.context :=
  {| z3.forall_const := λ xs body, z3.Quantifier 1000 body |}.

Definition ex_zero : z3.expr :=
  z3.App 20 (z3.mk_func_decl z3.Z3_OP_ANUM "0") [].

Definition ex_fact (i : N) (predicate : string) : z3.expr :=
  z3.App i (z3.mk_func_decl z3.Z3_OP_UNINTERPRETED predicate) [ex_zero].

Definition ex_rule : z3.expr :=
  z3.App 30 (z3.mk_func_decl z3.Z3_OP_PR_ASSERTED "asserted")
    [z3.Quantifier 31 (z3.Var 32 0)].

Definition ex_hyper_resolve (i : N) (args : list z3.expr) : z3.expr :=
  z3.App i (z3.mk_func_decl z3.Z3_OP_PR_HYPER_RESOLVE "hyper-res") args.

Definition ex_P : z3.expr := ex_hyper_resolve 3 [ex_rule; ex_fact 21 "R"].
Definition ex_A : z3.expr :=
  ex_hyper_resolve 4 [ex_rule; ex_P; ex_fact 22 "S"].
Definition ex_B : z3.expr :=
  ex_hyper_resolve 5 [ex_rule; ex_P; ex_fact 23 "T"].
Definition ex_Q : z3.expr :=
  ex_hyper_resolve 6 [ex_rule; ex_A; ex_B; ex_fact 24 "query"].

Definition ex_false : z3.expr :=
  z3.App 0 (z3.mk_func_decl z3.Z3_OP_FALSE "false") [].

Definition ex_proof : z3.expr :=
  z3.App 7 (z3.mk_func_decl z3.Z3_OP_PR_MODUS_PONENS "mp") [ex_Q; ex_false].

(** A variant of the refutation in which the step [ex_A_twice] uses the
    shared sub-proof [ex_P] at two premise positions. *)
Definition ex_A_twice : z3.expr :=
  ex_hyper_resolve 4 [ex_rule; ex_P; ex_P; ex_fact 22 "S"].
Definition ex_Q_twice : z3.expr :=
  ex_hyper_resolve 6 [ex_rule; ex_A_twice; ex_B; ex_fact 24 "query"].
Definition ex_proof_twice : z3.expr :=
  z3.App 7 (z3.mk_func_decl z3.Z3_OP_PR_MODUS_PONENS "mp")
    [ex_Q_twice; ex_false].

(** A second proof: the query is answered by the fact [ex_P] alone. *)
Definition ex_fact_proof : z3.expr :=
  z3.App 8 (z3.mk_func_decl z3.Z3_OP_PR_MODUS_PONENS "mp") [ex_P; ex_false].

Definition ex_graph : CexGraph :=
  {| nodes := list_to_map
       [(6%N, ("query", ["0"])); (4%N, ("S", ["0"]));
        (5%N, ("T", ["0"])); (3%N, ("R", ["0"]))];
     edges := list_to_map
       [(6%N, [4%N; 5%N]); (4%N, [3%N]); (5%N, [3%N]); (3%N, [])] |}.

(** The states of the run on [ex_proof]: before the loop and after it. *)
Definition ex_state_init : state :=
  {| graph := {| nodes := {[ 6%N := ("query", ["0"]) ]}; edges := ∅ |};
     proofStack := [ex_Q];
     visited := {[ 6%N ]} |}.

Definition ex_state_final : state :=
  {| graph := ex_graph;
     proofStack := [];
     visited := list_to_set [6%N; 4%N; 5%N; 3%N] |}.

(** The graph and the states of the run on [ex_proof_twice]. *)
Definition ex_graph_twice : CexGraph :=
  {| nodes := nodes ex_graph;
     edges := list_to_map
       [(6%N, [4%N; 5%N]); (4%N, [3%N; 3%N]); (5%N, [3%N]); (3%N, [])] |}.

Definition ex_state_init_twice : state :=
  {| graph := {| nodes := {[ 6%N := ("query", ["0"]) ]}; edges := ∅ |};
     proofStack := [ex_Q_twice];
     visited := {[ 6%N ]} |}.

Definition ex_state_final_twice : state :=
  {| graph := ex_graph_twice;
     proofStack := [];
     visited := list_to_set [6%N; 4%N; 5%N; 3%N] |}.

(** A registry with two declared variables, and an engine whose verdict
    is chosen by the goal's name. *)
Definition ex_constants : list (string * z3.expr) :=
  [("x", z3.App 40 (z3.mk_func_decl z3.Z3_OP_UNINTERPRETED "x") []);
   ("y", z3.App 41 (z3.mk_func_decl z3.Z3_OP_UNINTERPRETED "y") [])].

Definition ex_goal (goal : string) : Expression := mk_Expression goal [].

Definition ex_toZ3Expr (e : Expression) : result z3.expr :=
  match e with
  | mk_Expression nm _ =>
      if String.eqb nm "ill-sorted" then Throw (z3_exception Z3_EXCEPTION)
      else Ok (z3.App 50 (z3.mk_func_decl z3.Z3_OP_UNINTERPRETED nm) [])
  end.

Definition ex_fp_query (goal : z3.expr) : result z3.check_result :=
  match goal with
  | z3.App _ d _ =>
      if String.eqb (z3.symbol d) "safe" then Ok z3.unsat
      else if String.eqb (z3.symbol d) "hard" then Ok z3.unknown
      else if String.eqb (z3.symbol d) "crash"
           then Throw (z3_exception Z3_EXCEPTION)
      else Ok z3.sat
  | _ => Throw (z3_exception Z3_INVALID_ARG)
  end.

Definition ex_interface : Z3CHCInterface :=
  {| m_z3Interface := {| constants := ex_constants; toZ3Expr := ex_toZ3Expr |};
     m_context := ex_context;
     m_solver := {| rules := []; fp_query := ex_fp_query;
                    get_answer := λ _, Ok ex_proof |} |}.

(** Every key of the edge map is a key of the node map. *)
Definition edges_in_nodes (g : CexGraph) : Prop :=
  dom (edges g) ⊆ dom (nodes g).

(** The keys of the node map are the visited ids. *)
Definition nodes_eq_visited (st : state) : Prop :=
  dom (nodes (graph st)) = visited st.

(** The size of a term, and paths along the edges of a graph. *)
Fixpoint expr_size (e : z3.expr) : nat :=
  match e with
  | z3.App _ _ args => Datatypes.S (list_sum (map expr_size args))
  | z3.Var _ _ => 1
  | z3.Quantifier _ body => Datatypes.S (expr_size body)
  end.

Inductive graph_path (g : CexGraph) (k : N) : N → Prop :=
  | graph_path_here : graph_path g k k
  | graph_path_edge c k' :
      graph_path g k c → k' ∈ edges_at g c → graph_path g k k'.

(** * Properties *)

(** Unfold the sequencing of the exception monad. *)
Ltac rsimpl := cbn [smtAssert mbind result_bind mret result_ret] in *.

(** ** Accessors *)

Lemma wrap32_small (z : Z) : 0 ≤ z < 2 ^ 32 → wrap32 z = z.
Proof. intros Hz. unfold wrap32. by apply Z.mod_small. Qed.

Lemma arg_App_lookup (i : N) (d : z3.func_decl) (args : list z3.expr)
    (k : nat) (a : z3.expr) :
  args !! k = Some a → z3.arg (z3.App i d args) (Z.of_nat k) = Ok a.
Proof.
  intros Hk. pose proof (lookup_lt_Some _ _ _ Hk) as Hlt. simpl.
  destruct (Z.ltb_spec (Z.of_nat k) 0); [lia|].
  destruct (Z.leb_spec (Z.of_nat (length args)) (Z.of_nat k)); [lia|].
  simpl. by rewrite Nat2Z.id, Hk.
Qed.

Lemma arg_Ok_inv (e : z3.expr) (i : Z) (a : z3.expr) :
  z3.arg e i = Ok a →
  ∃ n d args, e = z3.App n d args ∧ 0 ≤ i ∧ args !! Z.to_nat i = Some a.
Proof.
  destruct e as [n d args| |]; simpl; try discriminate.
  destruct (Z.ltb_spec i 0); simpl; [discriminate|].
  destruct (Z.leb_spec (Z.of_nat (length args)) i); [discriminate|].
  destruct (args !! Z.to_nat i) eqn:Hl; [|discriminate].
  intros [= ->]. eauto 10.
Qed.

(** [arg] throws exactly when the index is out of range (applications). *)
Lemma arg_in_range (n : N) (d : z3.func_decl) (args : list z3.expr) (i : Z) :
  0 ≤ i < Z.of_nat (length args) →
  ∃ a, z3.arg (z3.App n d args) i = Ok a ∧ args !! Z.to_nat i = Some a.
Proof.
  intros Hi. destruct (lookup_lt_is_Some_2 args (Z.to_nat i)) as [a Ha]; [lia|].
  exists a. split; [|done].
  rewrite <- (Z2Nat.id i) by lia. by apply arg_App_lookup.
Qed.

(** C8.  For an application node, [fact] returns the node itself when it
    has no arguments, and otherwise its last argument, the one at position
    [argumentCount - 1].  (The argument count is an [unsigned].) *)
Theorem fact_last_argument (n : N) (d : z3.func_decl) (args : list z3.expr) :
  Z.of_nat (length args) < 2 ^ 32 →
  (args = [] → fact (z3.App n d args) = Ok (z3.App n d args)) ∧
  (∀ x, last args = Some x →
     fact (z3.App n d args) = Ok x ∧
     args !! (length args - 1)%nat = Some x ∧
     z3.arg (z3.App n d args) (Z.of_nat (length args) - 1) = Ok x).
Proof.
  intros Hbound. split.
  - by intros ->.
  - intros x Hx. rewrite last_lookup in Hx.
    assert (Hlen : (0 < length args)%nat).
    { apply lookup_lt_Some in Hx. destruct args; simpl in *; lia. }
    replace (Nat.pred (length args)) with (length args - 1)%nat in Hx by lia.
    assert (Harg : z3.arg (z3.App n d args) (Z.of_nat (length args) - 1) = Ok x).
    { replace (Z.of_nat (length args) - 1) with (Z.of_nat (length args - 1))
        by lia.
      by apply arg_App_lookup. }
    split; [|done].
    unfold fact. simpl z3.is_app. simpl z3.num_args. cbn [smtAssert mbind result_bind].
    destruct (Z.eqb_spec (Z.of_nat (length args)) 0); [lia|].
    rewrite wrap32_small by lia. done.
Qed.

(** ** Entry checks *)

Lemma fact_App_Ok (n : N) (d : z3.func_decl) (args : list z3.expr) :
  ∃ f, fact (z3.App n d args) = Ok f ∧
       (args = [] ∧ f = z3.App n d args ∨ f ∈ args).
Proof.
  unfold fact. simpl z3.is_app. simpl z3.num_args.
  cbn [smtAssert mbind result_bind].
  destruct (Z.eqb_spec (Z.of_nat (length args)) 0) as [Hz|Hnz].
  - exists (z3.App n d args). split; [done|]. left.
    split; [|done]. destruct args; [done|simpl in Hz; lia].
  - assert (Hr : 0 ≤ wrap32 (Z.of_nat (length args) - 1)
                 < Z.of_nat (length args)).
    { unfold wrap32.
      pose proof (Z.mod_pos_bound (Z.of_nat (length args) - 1) (2 ^ 32)
                    ltac:(lia)).
      pose proof (Z.mod_le (Z.of_nat (length args) - 1) (2 ^ 32)
                    ltac:(lia) ltac:(lia)).
      lia. }
    destruct (arg_in_range n d args _ Hr) as (a & Ha & Hl).
    exists a. split; [done|]. right. by eapply list_elem_of_lookup_2.
Qed.

Lemma fact_not_app (e : z3.expr) :
  z3.is_app e = false → fact e = Throw (smtAssertFailed fact_is_app).
Proof. by destruct e. Qed.

(** Extraction gets past its two entry assertions exactly when the root is
    an application whose fact is an application declared [false]. *)
Lemma cexGraph_entry_Ok_iff (_proof : z3.expr) :
  cexGraph_entry _proof = Ok tt ↔
  z3.is_app _proof = true ∧
  ∃ f d, fact _proof = Ok f ∧ z3.decl f = Ok d ∧
         z3.decl_kind d = z3.Z3_OP_FALSE.
Proof.
  unfold cexGraph_entry. split.
  - destruct (z3.is_app _proof) eqn:Happ; rsimpl; [|done].
    destruct (fact _proof) as [f|] eqn:Hf; rsimpl; [|done].
    destruct (z3.decl f) as [d|] eqn:Hd; rsimpl; [|done].
    intros Hk. split; [done|]. exists f, d. do 2 (split; [done|]).
    unfold smtAssert in Hk. by case_bool_decide.
  - intros (-> & f & d & -> & Hd & Hk). rsimpl. rewrite Hd. rsimpl.
    by rewrite bool_decide_eq_true_2.
Qed.

(** When an entry check fails, no state is built: [cexGraph] ends with the
    failure of [cexGraph_entry], whatever the fuel. *)
Lemma cexGraph_entry_Throw (fuel : nat) (_proof : z3.expr) (e : exn) :
  cexGraph_entry _proof = Throw e → cexGraph fuel _proof = Some (Throw e).
Proof.
  intros He. unfold cexGraph, cexGraph_run, cexGraph_init. by rewrite He.
Qed.

(** C4.  A root that is an application but whose fact is not one (here a
    quantified formula) does not get past the entry checks, and is not
    stopped by an assertion either: [decl] is asked of the fact before
    anything has asserted that the fact is an application, and it is the
    engine that throws. *)
Theorem cexGraph_entry_non_application_fact
    (fuel : nat) (n m : N) (d : z3.func_decl) (body : z3.expr) :
  let _proof := z3.App n d [z3.Quantifier m body] in
  z3.is_app _proof = true ∧
  fact _proof = Ok (z3.Quantifier m body) ∧
  cexGraph_entry _proof = Throw (z3_exception Z3_INVALID_ARG) ∧
  cexGraph fuel _proof = Some (Throw (z3_exception Z3_INVALID_ARG)) ∧
  ∀ site, cexGraph fuel _proof ≠ Some (Throw (smtAssertFailed site)).
Proof.
  intros _proof. repeat split; try done.
Qed.

(** ** [addRule] *)

Lemma c_str_no_nul (s : string) :
  Ascii.zero ∉ list_ascii_of_string s → c_str s = s.
Proof.
  induction s as [|c s IH]; [done|]. simpl. intros Hnul.
  destruct (Ascii.eqb_spec c Ascii.zero) as [->|Hc].
  - exfalso. apply Hnul. left.
  - f_equal. apply IH. intros Hin. apply Hnul. by right.
Qed.

Lemma collect_variables (l : list (string * z3.expr)) (acc : list z3.expr) :
  foldl (λ vs var, vs ++ [var.2]) acc l = acc ++ l.*2.
Proof.
  revert acc. induction l as [|x l IH]; intros acc; simpl.
  - by rewrite app_nil_r.
  - rewrite IH. by rewrite <- app_assoc.
Qed.

(** C5.  [addRule(expr, name)] hands the solver one more rule under the
    symbol made from [name]: the translated rule itself when no free
    variable is declared, and otherwise the translated rule universally
    quantified over exactly the declared variables, as they are at the
    call.  (The symbol is made from [name.c_str()], which is [name] itself
    unless a NUL is embedded in it.) *)
Theorem addRule_quantifies_over_constants
    (self : Z3CHCInterface) (_expr : Expression) (_name : string)
    (rule : z3.expr) :
  toZ3Expr (m_z3Interface self) _expr = Ok rule →
  ∃ self' added,
    addRule self _expr _name = Ok self' ∧
    m_z3Interface self' = m_z3Interface self ∧
    rules (m_solver self') =
      rules (m_solver self) ++ [(added, c_str _name)] ∧
    (Ascii.zero ∉ list_ascii_of_string _name → c_str _name = _name) ∧
    (constants (m_z3Interface self) = [] → added = rule) ∧
    (constants (m_z3Interface self) ≠ [] →
       added = z3.forall_const (m_context self)
                 (constants (m_z3Interface self)).*2 rule).
Proof.
  intros Hrule. unfold addRule. rewrite Hrule. rsimpl.
  case_bool_decide as Hc.
  - eexists _, rule. split_and!; try done. apply c_str_no_nul.
  - eexists _, _. split_and!; try done; [apply c_str_no_nul|].
    intros _. by rewrite collect_variables.
Qed.

(** ** [query] *)

(** C3.  [query] answers [(UNSATISFIABLE, empty)] to an unreachable goal
    and [(UNKNOWN, empty)] to an indeterminate one; a [z3::exception]
    thrown by the translation, by the engine's query, or anywhere else
    inside the [try] block is caught and answered [(ERROR, empty)]; and
    [ERROR] never comes with a graph that has nodes or edges. *)
Theorem query_verdict_mapping
    (fuel : nat) (self : Z3CHCInterface) (_expr : Expression) :
  (∀ z3Expr,
     toZ3Expr (m_z3Interface self) _expr = Ok z3Expr →
     fp_query (m_solver self) z3Expr = Ok z3.unsat →
     query fuel self _expr = Some (Ok (UNSATISFIABLE, empty_graph))) ∧
  (∀ z3Expr,
     toZ3Expr (m_z3Interface self) _expr = Ok z3Expr →
     fp_query (m_solver self) z3Expr = Ok z3.unknown →
     query fuel self _expr = Some (Ok (UNKNOWN, empty_graph))) ∧
  (∀ code,
     toZ3Expr (m_z3Interface self) _expr = Throw (z3_exception code) →
     query fuel self _expr = Some (Ok (ERROR, empty_graph))) ∧
  (∀ z3Expr code,
     toZ3Expr (m_z3Interface self) _expr = Ok z3Expr →
     fp_query (m_solver self) z3Expr = Throw (z3_exception code) →
     query fuel self _expr = Some (Ok (ERROR, empty_graph))) ∧
  (∀ code,
     query_try fuel self _expr = Some (Throw (z3_exception code)) →
     query fuel self _expr = Some (Ok (ERROR, empty_graph))) ∧
  (∀ g,
     query fuel self _expr = Some (Ok (ERROR, g)) →
     nodes g = ∅ ∧ edges g = ∅).
Proof.
  unfold query, query_try. split_and!.
  - intros z Ht Hq. rewrite Ht. cbn [mbind result_bind]. by rewrite Hq.
  - intros z Ht Hq. rewrite Ht. cbn [mbind result_bind]. by rewrite Hq.
  - intros code Ht. by rewrite Ht.
  - intros z code Ht Hq. rewrite Ht. cbn [mbind result_bind]. by rewrite Hq.
  - intros code Hq. by rewrite Hq.
  - intros g Hq.
    assert (g = empty_graph) as ->; [|done].
    repeat (case_match; simplify_eq; rsimpl;
            cbn [catch_z3_exception] in *; try done).
Qed.

(** ** The [for] loop as a fold over the fetched children *)

Lemma drop_lookup_cons {A : Type} (l : list A) (k : nat) (a : A) :
  l !! k = Some a → drop k l = a :: drop (Datatypes.S k) l.
Proof.
  revert k. induction l as [|x l IH]; intros [|k] Hk; simplify_eq/=; eauto.
Qed.

Lemma for_range_premise_step (n : N) (d : z3.func_decl)
    (args : list z3.expr) (count k : nat) (st : state) :
  (k + count ≤ length args)%nat →
  for_range count (Z.of_nat k) (premise_step (z3.App n d args)) st =
  foldlM (premise_visit (z3.App n d args)) (take count (drop k args)) st.
Proof.
  revert k st. induction count as [|count IH]; intros k st Hk; [done|].
  destruct (lookup_lt_is_Some_2 args k) as [a Ha]; [lia|].
  rewrite (drop_lookup_cons _ _ _ Ha). cbn [take for_range foldlM].
  assert (premise_step (z3.App n d args) (Z.of_nat k) st =
          premise_visit (z3.App n d args) a st) as ->.
  { unfold premise_step. by rewrite (arg_App_lookup _ _ _ _ _ Ha). }
  destruct (premise_visit (z3.App n d args) a st) as [st'|e]; rsimpl; [|done].
  replace (Z.of_nat k + 1) with (Z.of_nat (Datatypes.S k)) by lia.
  apply IH. lia.
Qed.

Lemma wrap32_pred_bounds (k : Z) :
  0 < k → 0 ≤ wrap32 (k - 1) ≤ k - 1.
Proof.
  intros Hk. unfold wrap32.
  pose proof (Z.mod_pos_bound (k - 1) (2 ^ 32) ltac:(lia)).
  pose proof (Z.mod_le (k - 1) (2 ^ 32) ltac:(lia) ltac:(lia)). lia.
Qed.

Lemma is_hyper_resolve_eq (e : z3.expr) :
  is_hyper_resolve e = Ok (is_hyper_resolution e).
Proof. by destruct e. Qed.

(** One iteration, spelled out: the membership assertion, the pop, and
    the visits of the fetched children in order. *)
Lemma loop_body_unfold (st : state) (proofNode : z3.expr)
    (rest : list z3.expr) :
  proofStack st = proofNode :: rest →
  loop_body st =
    (_ ← smtAssert
           (bool_decide (is_Some (nodes (graph st) !! z3.id proofNode)))
           cexGraph_popped_in_nodes;
     _ ← smtAssert
           (negb (is_hyper_resolution proofNode) ||
            negb (bool_decide (z3.num_args proofNode = Ok 0)))
           cexGraph_hyper_has_args;
     foldlM (premise_visit proofNode) (traversed proofNode) (pop st)).
Proof.
  intros Hst. unfold loop_body, pop, traversed. rewrite Hst. cbn [tail].
  destruct (bool_decide _); rsimpl; [|done].
  rewrite is_hyper_resolve_eq. rsimpl.
  destruct (is_hyper_resolution proofNode) eqn:Hhr; [|done].
  destruct proofNode as [n d args| |]; [|done|done].
  cbn [z3.num_args loop_premises negb orb]. rsimpl.
  destruct (Z.ltb_spec 0 (Z.of_nat (length args))) as [Hpos|Hz].
  - rewrite (bool_decide_eq_false_2 (Ok _ = Ok 0)) by (intros [= ?]; lia).
    rsimpl. unfold for_loop.
    pose proof (wrap32_pred_bounds _ Hpos).
    rewrite (for_range_premise_step n d args _ 1) by lia. done.
  - assert (args = []) as -> by (destruct args; simpl in *; [done|lia]).
    done.
Qed.

Lemma loop_body_Ok_inv (st st' : state) (proofNode : z3.expr)
    (rest : list z3.expr) :
  proofStack st = proofNode :: rest →
  loop_body st = Ok st' →
  is_Some (nodes (graph st) !! z3.id proofNode) ∧
  foldlM (premise_visit proofNode) (traversed proofNode) (pop st) = Ok st'.
Proof.
  intros Hst. rewrite (loop_body_unfold _ _ _ Hst).
  destruct (bool_decide (is_Some _)) eqn:Hin; rsimpl; [|done].
  apply bool_decide_eq_true in Hin.
  destruct (_ || _); rsimpl; [|done]. done.
Qed.

(** Under the [unsigned] bound the loop fetches exactly the premises. *)
Lemma traversed_premises (e : z3.expr) :
  arity_u32 e → traversed e = premises e.
Proof.
  destruct e as [n d args| |]; [|done|done].
  unfold traversed, premises, arity_u32.
  cbn [is_hyper_resolution loop_premises]. intros Hb.
  case_bool_decide; [|done].
  destruct args as [|a args]; [done|]. cbn [length] in *.
  rewrite wrap32_small by lia.
  f_equal. lia.
Qed.

(** ** Runs of the loop *)

Lemma foldlM_inv {S A : Type} (P : S → Prop) (f : A → S → result S)
    (l : list A) (s s' : S) :
  (∀ a t t', a ∈ l → P t → f a t = Ok t' → P t') →
  P s → foldlM f l s = Ok s' → P s'.
Proof.
  revert s. induction l as [|a l IH]; intros s Hf Hs; simpl.
  - by intros [= <-].
  - destruct (f a s) as [t|e] eqn:Hfa; rsimpl; [|done].
    apply IH.
    + intros b u u' Hb. apply Hf. by right.
    + eapply Hf; [left|done|done].
Qed.

Lemma loop_steps_inv (P : state → Prop) (n : nat) (st st' : state) :
  (∀ t t', P t → proofStack t ≠ [] → loop_body t = Ok t' → P t') →
  P st → loop_steps n st = Some st' → P st'.
Proof.
  intros Hstep. revert st. induction n as [|n IH]; intros st Hst; simpl.
  - by intros [= <-].
  - destruct (proofStack st) as [|x rest] eqn:Hstack; [done|].
    destruct (loop_body st) as [t|e] eqn:Hbody; [|done].
    apply IH. eapply Hstep; [done| |done]. by rewrite Hstack.
Qed.

(** A finished loop is some number of iterations ending on an empty
    stack; a failed one is some number of iterations followed by one that
    throws. *)
Lemma cexGraph_loop_Ok_inv (fuel : nat) (st st' : state) :
  cexGraph_loop fuel st = Some (Ok st') →
  ∃ n, (n ≤ fuel)%nat ∧ loop_steps n st = Some st' ∧ proofStack st' = [] ∧
       popped_ids fuel st = popped_ids n st.
Proof.
  revert st. induction fuel as [|fuel IH]; intros st; cbn [cexGraph_loop].
  - destruct (proofStack st) eqn:Hs; [|done]. intros [= <-].
    exists 0%nat. by split_and!.
  - destruct (proofStack st) as [|x rest] eqn:Hs.
    + intros [= <-]. exists 0%nat. cbn [popped_ids loop_steps]. rewrite Hs.
      split_and!; [lia|done|done|done].
    + destruct (loop_body st) as [t|e] eqn:Hb; [|done].
      intros Hl. destruct (IH _ Hl) as (n & Hn & Hsteps & Hemp & Hpop).
      exists (Datatypes.S n). cbn [loop_steps popped_ids]. rewrite Hs, Hb.
      split_and!; [lia|done|done|by rewrite Hpop].
Qed.

Lemma cexGraph_loop_Throw_inv (fuel : nat) (st : state) (e : exn) :
  cexGraph_loop fuel st = Some (Throw e) →
  ∃ n st', loop_steps n st = Some st' ∧ proofStack st' ≠ [] ∧
           loop_body st' = Throw e.
Proof.
  revert st. induction fuel as [|fuel IH]; intros st; cbn [cexGraph_loop].
  - by destruct (proofStack st).
  - destruct (proofStack st) as [|x rest] eqn:Hs; [done|].
    destruct (loop_body st) as [t|e'] eqn:Hb.
    + intros Hl. destruct (IH _ Hl) as (n & st' & Hsteps & Hne & Hthrow).
      exists (Datatypes.S n), st'. cbn [loop_steps]. by rewrite Hs, Hb.
    + intros [= ->]. exists 0%nat, st. by rewrite Hs.
Qed.

(** What a successful visit of [child] leaves behind. *)
Lemma premise_visit_Ok_inv (proofNode child : z3.expr) (st st' : state) :
  premise_visit proofNode child st = Ok st' →
  proofStack st' =
    (if decide (z3.id child ∈ visited st) then proofStack st
     else child :: proofStack st) ∧
  visited st' =
    (if decide (z3.id child ∈ visited st) then visited st
     else {[ z3.id child ]} ∪ visited st) ∧
  ∃ g2,
    (if decide (is_Some (nodes (graph st) !! z3.id child))
     then g2 = graph st
     else ∃ lbl, node_label child = Ok lbl ∧
          g2 = {| nodes := <[ z3.id child := lbl ]> (nodes (graph st));
                  edges := <[ z3.id child := [] ]> (edges (graph st)) |}) ∧
    graph st' =
      {| nodes := nodes g2;
         edges := <[ z3.id proofNode :=
                      edges_at g2 (z3.id proofNode) ++ [z3.id child] ]>
                    (edges g2) |}.
Proof.
  unfold premise_visit.
  destruct (decide (z3.id child ∈ visited st)) as [Hv|Hv];
    cbn [graph proofStack visited];
    (destruct (decide (is_Some (nodes (graph st) !! z3.id child)))
       as [Hin|Hin];
     [ rsimpl; intros [= <-]; cbn [proofStack visited graph];
       split_and!; [done|done|]; by exists (graph st)
     | destruct (node_label child) as [lbl|e]; rsimpl; [|done];
       intros [= <-]; cbn [proofStack visited graph];
       split_and!; [done|done|];
       eexists; split; [by exists lbl|done] ]).
Qed.

Lemma cexGraph_init_Ok_inv (_proof : z3.expr) (st0 : state) :
  cexGraph_init _proof = Ok st0 →
  cexGraph_entry _proof = Ok tt ∧
  ∃ root lbl,
    z3.arg _proof 0 = Ok root ∧ node_label root = Ok lbl ∧
    st0 = {| graph := {| nodes := {[ z3.id root := lbl ]}; edges := ∅ |};
             proofStack := [root];
             visited := {[ z3.id root ]} |}.
Proof.
  unfold cexGraph_init, cexGraph_seed.
  destruct (cexGraph_entry _proof) as [[]|e]; rsimpl; [|done].
  destruct (z3.arg _proof 0) as [root|e] eqn:Hroot; rsimpl; [|done].
  destruct (node_label root) as [lbl|e] eqn:Hlbl; rsimpl; [|done].
  intros [= <-]. split; [done|]. by exists root, lbl.
Qed.

Lemma cexGraph_Ok_inv (fuel : nat) (_proof : z3.expr) (g : CexGraph) :
  cexGraph fuel _proof = Some (Ok g) →
  ∃ st0 n st,
    cexGraph_init _proof = Ok st0 ∧ loop_steps n st0 = Some st ∧
    proofStack st = [] ∧ graph st = g.
Proof.
  unfold cexGraph, cexGraph_run.
  destruct (cexGraph_init _proof) as [st0|e] eqn:Hinit; [|done].
  destruct (cexGraph_loop fuel st0) as [[st|e]|] eqn:Hloop; [|done|done].
  intros [= <-].
  destruct (cexGraph_loop_Ok_inv _ _ _ Hloop) as (n & _ & Hn & Hemp & _).
  by exists st0, n, st.
Qed.

Lemma cexGraph_Throw_inv (fuel : nat) (_proof : z3.expr) (e : exn) :
  cexGraph fuel _proof = Some (Throw e) →
  cexGraph_init _proof = Throw e ∨
  ∃ st0 n st,
    cexGraph_init _proof = Ok st0 ∧ loop_steps n st0 = Some st ∧
    proofStack st ≠ [] ∧ loop_body st = Throw e.
Proof.
  unfold cexGraph, cexGraph_run.
  destruct (cexGraph_init _proof) as [st0|e0] eqn:Hinit.
  - destruct (cexGraph_loop fuel st0) as [[st|e0]|] eqn:Hloop; [done| |done].
    intros [= ->]. right.
    destruct (cexGraph_loop_Throw_inv _ _ _ Hloop) as (n & st & ? & ? & ?).
    by exists st0, n, st.
  - intros [= ->]. by left.
Qed.

(** ** The node map covers the stack and the edges *)

Lemma premise_visit_nodes_mono (proofNode child : z3.expr) (st st' : state) :
  premise_visit proofNode child st = Ok st' →
  is_Some (nodes (graph st') !! z3.id child) ∧
  ∀ k, is_Some (nodes (graph st) !! k) → is_Some (nodes (graph st') !! k).
Proof.
  intros Hv.
  destruct (premise_visit_Ok_inv _ _ _ _ Hv) as (_ & _ & g2 & Hg2 & ->).
  cbn [nodes]. case_decide as Hin.
  - by subst g2.
  - destruct Hg2 as (lbl & _ & ->). cbn [nodes]. split.
    + rewrite lookup_insert_eq. by eexists.
    + intros k Hk. rewrite lookup_insert_is_Some'. by right.
Qed.

Lemma premise_visit_stack_in_nodes (proofNode child : z3.expr)
    (st st' : state) :
  stack_in_nodes st → premise_visit proofNode child st = Ok st' →
  stack_in_nodes st'.
Proof.
  intros Hst Hv x Hx.
  destruct (premise_visit_nodes_mono _ _ _ _ Hv) as [Hc Hmono].
  destruct (premise_visit_Ok_inv _ _ _ _ Hv) as (Hs & _).
  rewrite Hs in Hx. case_decide.
  - by apply Hmono, Hst.
  - apply elem_of_cons in Hx as [->|Hx]; [done|by apply Hmono, Hst].
Qed.

Lemma premise_visit_no_dangling (proofNode child : z3.expr)
    (st st' : state) :
  no_dangling (graph st) → premise_visit proofNode child st = Ok st' →
  no_dangling (graph st').
Proof.
  intros Hst Hv.
  destruct (premise_visit_Ok_inv _ _ _ _ Hv) as (_ & _ & g2 & Hg2 & ->).
  assert (Hg : no_dangling g2 ∧ is_Some (nodes g2 !! z3.id child)).
  { case_decide as Hin; [by subst g2|].
    destruct Hg2 as (lbl & _ & ->). split.
    - intros k l Hk c Hc. cbn [nodes edges] in *.
      rewrite lookup_insert_is_Some'.
      apply lookup_insert_Some in Hk as [[_ <-]|[_ Hk]].
      + by apply elem_of_nil in Hc.
      + right. by eapply Hst.
    - cbn [nodes]. rewrite lookup_insert_eq. by eexists. }
  destruct Hg as [Hnd Hc]. clear Hg2.
  intros k l Hk c Hcl. cbn [nodes edges] in *.
  apply lookup_insert_Some in Hk as [[_ <-]|[_ Hk]].
  - apply elem_of_app in Hcl as [Hcl|Hcl].
    + unfold edges_at in Hcl.
      destruct (edges g2 !! z3.id proofNode) as [l0|] eqn:Hl0;
        [by eapply Hnd|by apply elem_of_nil in Hcl].
    + by apply list_elem_of_singleton in Hcl as ->.
  - by eapply Hnd.
Qed.

Lemma loop_body_stack_in_nodes (st st' : state) :
  stack_in_nodes st → proofStack st ≠ [] → loop_body st = Ok st' →
  stack_in_nodes st'.
Proof.
  intros Hst Hne Hb.
  destruct (proofStack st) as [|x rest] eqn:Hs; [done|].
  destruct (loop_body_Ok_inv _ _ _ _ Hs Hb) as [_ Hfold].
  revert Hfold. apply (foldlM_inv stack_in_nodes).
  - intros c t t' _. apply premise_visit_stack_in_nodes.
  - intros y Hy. apply Hst. rewrite Hs. cbn [pop proofStack] in Hy.
    rewrite Hs in Hy. by right.
Qed.

Lemma loop_body_no_dangling (st st' : state) :
  no_dangling (graph st) → proofStack st ≠ [] → loop_body st = Ok st' →
  no_dangling (graph st').
Proof.
  intros Hst Hne Hb.
  destruct (proofStack st) as [|x rest] eqn:Hs; [done|].
  destruct (loop_body_Ok_inv _ _ _ _ Hs Hb) as [_ Hfold].
  revert Hfold. apply (foldlM_inv (λ t, no_dangling (graph t))); [|done].
  intros c t t' _. apply premise_visit_no_dangling.
Qed.

Lemma cexGraph_init_stack_in_nodes (_proof : z3.expr) (st0 : state) :
  cexGraph_init _proof = Ok st0 → stack_in_nodes st0.
Proof.
  intros Hinit.
  destruct (cexGraph_init_Ok_inv _ _ Hinit) as (_ & root & lbl & _ & _ & ->).
  intros x Hx. cbn [proofStack graph nodes] in *.
  apply list_elem_of_singleton in Hx as ->.
  rewrite lookup_singleton_eq. by eexists.
Qed.

(** C1.  Whenever extraction completes, every node id that appears in an
    edge list of the returned graph is a key of its node map. *)
Theorem cexGraph_no_dangling_edges
    (fuel : nat) (_proof : z3.expr) (g : CexGraph) :
  cexGraph fuel _proof = Some (Ok g) →
  ∀ k l, edges g !! k = Some l → ∀ c, c ∈ l → c ∈ dom (nodes g).
Proof.
  intros Hg k l Hk c Hc. apply elem_of_dom.
  destruct (cexGraph_Ok_inv _ _ _ Hg) as (st0 & n & st & Hinit & Hn & _ & <-).
  assert (Hnd : no_dangling (graph st)); [|by eapply Hnd].
  revert Hn. apply (loop_steps_inv (λ t, no_dangling (graph t))).
  - apply loop_body_no_dangling.
  - destruct (cexGraph_init_Ok_inv _ _ Hinit)
      as (_ & root & lbl & _ & _ & ->).
    intros k' l' Hk'. cbn [graph edges] in Hk'. by rewrite lookup_empty in Hk'.
Qed.

(** ** Which exceptions the traversal can throw *)

Lemma for_range_arguments (n : N) (d : z3.func_decl) (args : list z3.expr)
    (count k : nat) (acc : list string) :
  (k + count ≤ length args)%nat →
  for_range count (Z.of_nat k)
    (λ i l, a ← z3.arg (z3.App n d args) i; Ok (l ++ [to_string a])) acc =
  Ok (acc ++ map to_string (take count (drop k args))).
Proof.
  revert k acc. induction count as [|count IH]; intros k acc Hk.
  - cbn [for_range take map]. by rewrite app_nil_r.
  - destruct (lookup_lt_is_Some_2 args k) as [a Ha]; [lia|].
    rewrite (drop_lookup_cons _ _ _ Ha). cbn [take for_range map].
    rewrite (arg_App_lookup _ _ _ _ _ Ha). rsimpl.
    replace (Z.of_nat k + 1) with (Z.of_nat (Datatypes.S k)) by lia.
    rewrite IH by lia. by rewrite <- app_assoc.
Qed.

(** [arguments] renders every argument of an application, in order. *)
Lemma arguments_App (n : N) (d : z3.func_decl) (args : list z3.expr) :
  arguments (z3.App n d args) = Ok (map to_string args).
Proof.
  unfold arguments, for_loop. cbn [z3.is_app z3.num_args]. rsimpl.
  rewrite Z.sub_0_r, Nat2Z.id.
  pose proof (for_range_arguments n d args (length args) 0 []
                ltac:(lia)) as Hr.
  change (Z.of_nat 0) with 0 in Hr. rewrite Hr.
  by rewrite drop_0, firstn_all.
Qed.

Lemma node_label_Throw (e : z3.expr) (x : exn) :
  node_label e = Throw x →
  z3.is_app e = false ∧ x = smtAssertFailed fact_is_app ∨
  (∃ f, fact e = Ok f ∧ z3.is_app f = false) ∧
    x = smtAssertFailed name_is_app.
Proof.
  unfold node_label.
  destruct (z3.is_app e) eqn:Happ.
  2:{ rewrite (fact_not_app _ Happ). rsimpl. intros [= <-]. by left. }
  destruct e as [n d args|n i|n b]; [|done|done].
  destruct (fact_App_Ok n d args) as (f & -> & _). rsimpl.
  destruct f as [m d' args'|m i|m b].
  - cbn [name z3.is_app z3.decl]. rsimpl. rewrite arguments_App. by rsimpl.
  - cbn [name z3.is_app]. rsimpl. intros [= <-]. right. split; [|done].
    by eexists.
  - cbn [name z3.is_app]. rsimpl. intros [= <-]. right. split; [|done].
    by eexists.
Qed.

Lemma premise_visit_Throw (proofNode child : z3.expr) (st : state) (x : exn) :
  premise_visit proofNode child st = Throw x → node_label child = Throw x.
Proof.
  unfold premise_visit.
  destruct (decide (is_Some _)); rsimpl; [done|].
  destruct (node_label child); rsimpl; [intros ?; discriminate|by intros [= ->]].
Qed.

Lemma foldlM_Throw {S A : Type} (f : A → S → result S) (l : list A) (s : S)
    (x : exn) :
  foldlM f l s = Throw x → ∃ a t, a ∈ l ∧ f a t = Throw x.
Proof.
  revert s. induction l as [|a l IH]; intros s; simpl; [done|].
  destruct (f a s) as [t|e] eqn:Hfa; rsimpl.
  - intros Hl. destruct (IH _ Hl) as (b & u & Hb & Hu).
    exists b, u. split; [by right|done].
  - intros [= ->]. exists a, s. split; [left|done].
Qed.

Lemma loop_body_Throw_inv (st : state) (proofNode : z3.expr)
    (rest : list z3.expr) (x : exn) :
  proofStack st = proofNode :: rest →
  loop_body st = Throw x →
  ¬ is_Some (nodes (graph st) !! z3.id proofNode) ∧
    x = smtAssertFailed cexGraph_popped_in_nodes ∨
  is_hyper_resolution proofNode = true ∧ z3.num_args proofNode = Ok 0 ∧
    x = smtAssertFailed cexGraph_hyper_has_args ∨
  ∃ child, child ∈ traversed proofNode ∧ node_label child = Throw x.
Proof.
  intros Hs. rewrite (loop_body_unfold _ _ _ Hs).
  destruct (bool_decide (is_Some _)) eqn:Hin; rsimpl.
  2:{ intros [= <-]. left. by apply bool_decide_eq_false in Hin. }
  destruct (is_hyper_resolution proofNode) eqn:Hhr; cbn [negb orb].
  - destruct (bool_decide (z3.num_args proofNode = Ok 0)) eqn:Hz;
      cbn [negb]; rsimpl.
    { apply bool_decide_eq_true in Hz. intros [= <-]. right. by left. }
    intros Hf. right. right.
    destruct (foldlM_Throw _ _ _ _ Hf) as (c & t & Hc & Ht).
    exists c. split; [done|]. by eapply premise_visit_Throw.
  - rsimpl. intros Hf.
    destruct (foldlM_Throw _ _ _ _ Hf) as (c & t & Hc & Ht).
    unfold traversed in Hc. rewrite Hhr in Hc. by apply elem_of_nil in Hc.
Qed.

Lemma arg_Throw (e : z3.expr) (i : Z) (x : exn) :
  z3.arg e i = Throw x →
  z3.is_app e = false ∧ x = z3_exception Z3_INVALID_ARG ∨
  (∃ k, z3.num_args e = Ok k ∧ ¬ (0 ≤ i < k)) ∧ x = z3_exception Z3_IOB.
Proof.
  destruct e as [n d args| |]; simpl; [|by intros [= <-]; left..].
  destruct (Z.ltb_spec i 0); simpl.
  { intros [= <-]. right. split; [|done]. eexists. split; [done|lia]. }
  destruct (Z.leb_spec (Z.of_nat (length args)) i).
  { intros [= <-]. right. split; [|done]. eexists. split; [done|lia]. }
  destruct (args !! Z.to_nat i) eqn:Hl; [done|].
  apply lookup_ge_None in Hl. lia.
Qed.

Lemma cexGraph_entry_Throw_inv (_proof : z3.expr) (x : exn) :
  cexGraph_entry _proof = Throw x →
  z3.is_app _proof = false ∧ x = smtAssertFailed cexGraph_proof_is_app ∨
  (∃ f, fact _proof = Ok f ∧ z3.is_app f = false) ∧
    x = z3_exception Z3_INVALID_ARG ∨
  (∃ f d, fact _proof = Ok f ∧ z3.decl f = Ok d ∧
          z3.decl_kind d ≠ z3.Z3_OP_FALSE) ∧
    x = smtAssertFailed cexGraph_root_fact_false.
Proof.
  unfold cexGraph_entry.
  destruct _proof as [n d args|n i|n b];
    [|by intros [= <-]; left..].
  cbn [z3.is_app]. rsimpl.
  destruct (fact_App_Ok n d args) as (f & -> & _). rsimpl.
  destruct f as [m d' args'|m i|m b]; cbn [z3.decl]; rsimpl.
  - case_bool_decide as Hk; [done|]. intros [= <-]. right. right.
    split; [|done]. by exists (z3.App m d' args'), d'.
  - intros [= <-]. right. left. split; [|done]. by eexists.
  - intros [= <-]. right. left. split; [|done]. by eexists.
Qed.

Lemma cexGraph_seed_Throw_inv (_proof : z3.expr) (x : exn) :
  cexGraph_seed _proof = Throw x →
  z3.arg _proof 0 = Throw x ∨
  ∃ root, z3.arg _proof 0 = Ok root ∧ node_label root = Throw x.
Proof.
  unfold cexGraph_seed.
  destruct (z3.arg _proof 0) as [root|e]; rsimpl;
    [|intros [= ->]; by left].
  destruct (node_label root) as [lbl|e] eqn:Hl; rsimpl; [done|].
  intros [= <-]. right. by exists root.
Qed.

Lemma cexGraph_init_Throw_inv (_proof : z3.expr) (x : exn) :
  cexGraph_init _proof = Throw x →
  cexGraph_entry _proof = Throw x ∨
  cexGraph_entry _proof = Ok tt ∧ cexGraph_seed _proof = Throw x.
Proof.
  unfold cexGraph_init.
  destruct (cexGraph_entry _proof) as [[]|e]; rsimpl;
    [by right|intros [= ->]; by left].
Qed.

(** C9.  Every node on the stack, hence every node popped, is already a
    key of the node map: the seed is inserted before the loop and a premise
    in the iteration that pushes it.  So the assertion on a popped node's
    membership never fires. *)
Theorem popped_node_in_node_map (_proof : z3.expr) :
  (∀ st0 n st,
     cexGraph_init _proof = Ok st0 → loop_steps n st0 = Some st →
     (∀ x, x ∈ proofStack st → z3.id x ∈ dom (nodes (graph st))) ∧
     loop_body st ≠ Throw (smtAssertFailed cexGraph_popped_in_nodes)) ∧
  (∀ fuel,
     cexGraph fuel _proof ≠
     Some (Throw (smtAssertFailed cexGraph_popped_in_nodes))).
Proof.
  assert (Hinv : ∀ st0 n st,
    cexGraph_init _proof = Ok st0 → loop_steps n st0 = Some st →
    stack_in_nodes st).
  { intros st0 n st Hinit. apply (loop_steps_inv stack_in_nodes).
    - apply loop_body_stack_in_nodes.
    - by eapply cexGraph_init_stack_in_nodes. }
  assert (Hbody : ∀ st, stack_in_nodes st →
    loop_body st ≠ Throw (smtAssertFailed cexGraph_popped_in_nodes)).
  { intros st Hst Hthrow.
    destruct (proofStack st) as [|x rest] eqn:Hs.
    - unfold loop_body in Hthrow. by rewrite Hs in Hthrow.
    - destruct (loop_body_Throw_inv _ _ _ _ Hs Hthrow)
        as [[Hin _]|[(_ & _ & ?)|(c & _ & Hc)]]; [|done|].
      + apply Hin, Hst. rewrite Hs. left.
      + apply node_label_Throw in Hc as [[_ ?]|[_ ?]]; done. }
  split.
  - intros st0 n st Hinit Hn. split.
    + intros x Hx. apply elem_of_dom. by eapply Hinv.
    + eapply Hbody, Hinv; done.
  - intros fuel Hthrow.
    apply cexGraph_Throw_inv in Hthrow
      as [Hinit|(st0 & n & st & Hinit & Hn & _ & Hb)].
    + apply cexGraph_init_Throw_inv in Hinit as [He|[_ Hseed]].
      * apply cexGraph_entry_Throw_inv in He
          as [[_ ?]|[[_ ?]|[_ ?]]]; done.
      * apply cexGraph_seed_Throw_inv in Hseed as [Ha|(root & _ & Hl)].
        -- apply arg_Throw in Ha as [[_ ?]|[_ ?]]; done.
        -- apply node_label_Throw in Hl as [[_ ?]|[_ ?]]; done.
    + eapply Hbody; [|done]. by eapply Hinv.
Qed.

(** C10.  Every argument access of the extraction is in range provided the
    root application has at least one argument: then no index-out-of-bounds
    exception is thrown, whatever the proof below the root.  A root without
    arguments that is declared [false] passes both entry checks, and the
    very next statement, [_proof.arg(0)], is out of range. *)
Theorem argument_accesses_in_range (fuel : nat) (n : N) (d : z3.func_decl) :
  (∀ args, args ≠ [] →
     cexGraph fuel (z3.App n d args) ≠ Some (Throw (z3_exception Z3_IOB))) ∧
  (z3.decl_kind d = z3.Z3_OP_FALSE →
     cexGraph_entry (z3.App n d []) = Ok tt ∧
     z3.arg (z3.App n d []) 0 = Throw (z3_exception Z3_IOB) ∧
     cexGraph fuel (z3.App n d []) = Some (Throw (z3_exception Z3_IOB))).
Proof.
  split.
  - intros args Hargs Hthrow.
    apply cexGraph_Throw_inv in Hthrow
      as [Hinit|(st0 & m & st & _ & _ & Hne & Hb)].
    + apply cexGraph_init_Throw_inv in Hinit as [He|[_ Hseed]].
      * apply cexGraph_entry_Throw_inv in He
          as [[_ ?]|[[_ ?]|[_ ?]]]; done.
      * apply cexGraph_seed_Throw_inv in Hseed as [Ha|(root & _ & Hl)].
        -- apply arg_Throw in Ha as [[? _]|[(k & Hk & Hr) _]]; [done|].
           simpl in Hk. simplify_eq. destruct args; [done|].
           simpl in Hr. lia.
        -- apply node_label_Throw in Hl as [[_ ?]|[_ ?]]; done.
    + destruct (proofStack st) as [|x rest] eqn:Hs; [done|].
      destruct (loop_body_Throw_inv _ _ _ _ Hs Hb)
        as [[_ ?]|[(_ & _ & ?)|(c & _ & Hc)]]; [done|done|].
      apply node_label_Throw in Hc as [[_ ?]|[_ ?]]; done.
  - intros Hd.
    assert (He : cexGraph_entry (z3.App n d []) = Ok tt).
    { apply cexGraph_entry_Ok_iff. split; [done|].
      by exists (z3.App n d []), d. }
    split_and!; [done|done|].
    unfold cexGraph, cexGraph_run, cexGraph_init. by rewrite He.
Qed.

(** ** The edges of an expanded node *)

Lemma edges_at_insert (nd : gmap N (string * list string))
    (ed : gmap N (list N)) (k j : N) (l : list N) :
  edges_at {| nodes := nd; edges := <[ k := l ]> ed |} j =
  if decide (k = j) then l else edges_at {| nodes := nd; edges := ed |} j.
Proof.
  unfold edges_at. cbn [edges]. rewrite lookup_insert.
  by destruct (decide (k = j)).
Qed.

(** Visiting [child] appends its id to the edge list of [proofNode], a
    node already in the node map, and leaves every other edge list of a
    node of the node map as it is. *)
Lemma premise_visit_edges (proofNode child : z3.expr) (st st' : state) :
  is_Some (nodes (graph st) !! z3.id proofNode) →
  premise_visit proofNode child st = Ok st' →
  edges_at (graph st') (z3.id proofNode) =
    edges_at (graph st) (z3.id proofNode) ++ [z3.id child] ∧
  ∀ k, k ≠ z3.id proofNode → is_Some (nodes (graph st) !! k) →
       edges_at (graph st') k = edges_at (graph st) k.
Proof.
  intros HX Hv.
  destruct (premise_visit_Ok_inv _ _ _ _ Hv) as (_ & _ & g2 & Hg2 & ->).
  assert (Hg : ∀ k, is_Some (nodes (graph st) !! k) →
                    edges_at g2 k = edges_at (graph st) k).
  { intros k Hk. case_decide as Hin; [by subst g2|].
    destruct Hg2 as (lbl & _ & ->).
    unfold edges_at. cbn [edges]. rewrite lookup_insert_ne; [done|].
    by intros <-. }
  split.
  - unfold edges_at at 1. cbn [edges]. rewrite lookup_insert_eq.
    cbn [default]. by rewrite Hg.
  - intros k Hne Hk. unfold edges_at at 1. cbn [edges].
    rewrite lookup_insert_ne by done. by apply Hg.
Qed.

Lemma foldlM_premise_visit_edges (proofNode : z3.expr)
    (children : list z3.expr) (st st' : state) :
  is_Some (nodes (graph st) !! z3.id proofNode) →
  foldlM (premise_visit proofNode) children st = Ok st' →
  edges_at (graph st') (z3.id proofNode) =
    edges_at (graph st) (z3.id proofNode) ++ map z3.id children.
Proof.
  revert st. induction children as [|c cs IH]; intros st HX; simpl.
  - intros [= <-]. by rewrite app_nil_r.
  - destruct (premise_visit proofNode c st) as [t|e] eqn:Hv; rsimpl; [|done].
    intros Hf. rewrite (IH t).
    + destruct (premise_visit_edges _ _ _ _ HX Hv) as [-> _].
      by rewrite <- app_assoc.
    + by eapply premise_visit_nodes_mono.
    + done.
Qed.

(** C7.  When the popped node is a hyper-resolution application with [k]
    arguments, the iteration visits exactly the arguments at positions
    [1 .. k-2], in that order, and appends the id of each of them to the
    edge list of the popped node: after the iteration that list is what it
    was before, followed by the premise ids in argument order. *)
Theorem hyper_resolution_premise_edges
    (st st' : state) (n : N) (d : z3.func_decl) (args rest : list z3.expr) :
  proofStack st = z3.App n d args :: rest →
  z3.decl_kind d = z3.Z3_OP_PR_HYPER_RESOLVE →
  Z.of_nat (length args) < 2 ^ 32 →
  loop_body st = Ok st' →
  ∃ children,
    length children = (length args - 2)%nat ∧
    (∀ j, (j < length args - 2)%nat →
          children !! j = args !! (1 + j)%nat ∧
          ∃ c, z3.arg (z3.App n d args) (1 + Z.of_nat j) = Ok c ∧
               children !! j = Some c) ∧
    foldlM (premise_visit (z3.App n d args)) children (pop st) = Ok st' ∧
    edges_at (graph st') n = edges_at (graph st) n ++ map z3.id children.
Proof.
  intros Hs Hd Hb Hbody.
  destruct (loop_body_Ok_inv _ _ _ _ Hs Hbody) as [Hin Hfold].
  rewrite traversed_premises in Hfold by done.
  exists (premises (z3.App n d args)).
  assert (Hlen : length (premises (z3.App n d args)) = (length args - 2)%nat).
  { unfold premises. cbn [z3.decl_kind]. rewrite bool_decide_eq_true_2 by done.
    rewrite length_take, length_drop. lia. }
  assert (Hlk : ∀ j, (j < length args - 2)%nat →
    premises (z3.App n d args) !! j = args !! (1 + j)%nat).
  { intros j Hj. unfold premises. rewrite bool_decide_eq_true_2 by done.
    rewrite lookup_take_lt by done. by rewrite lookup_drop. }
  split_and!; [done| |done|].
  - intros j Hj. split; [by apply Hlk|].
    destruct (lookup_lt_is_Some_2 args (1 + j)) as [c Hc]; [lia|].
    exists c. split; [|by rewrite Hlk].
    replace (1 + Z.of_nat j) with (Z.of_nat (1 + j)) by lia.
    by apply arg_App_lookup.
  - exact (foldlM_premise_visit_edges _ _ (pop st) _ Hin Hfold).
Qed.

(** ** Termination *)

Lemma subterm_ids_self (e : z3.expr) : z3.id e ∈ subterm_ids e.
Proof.
  destruct e; cbn [subterm_ids z3.id];
    rewrite ?elem_of_union, elem_of_singleton; auto.
Qed.

Lemma subterm_ids_arg (n : N) (d : z3.func_decl) (args : list z3.expr)
    (c : z3.expr) :
  c ∈ args → subterm_ids c ⊆ subterm_ids (z3.App n d args).
Proof.
  intros Hc i Hi. cbn [subterm_ids]. apply elem_of_union. right.
  apply elem_of_union_list. exists (subterm_ids c). split; [|done].
  apply list_elem_of_fmap. by exists c.
Qed.

Lemma traversed_args (proofNode c : z3.expr) :
  c ∈ traversed proofNode →
  ∃ n d args, proofNode = z3.App n d args ∧ c ∈ args.
Proof.
  unfold traversed. destruct (is_hyper_resolution proofNode); [|by intros ?%elem_of_nil].
  destruct proofNode as [n d args| |]; cbn [loop_premises];
    [|by intros ?%elem_of_nil..].
  intros Hc. exists n, d, args. split; [done|].
  by apply subseteq_take, subseteq_drop in Hc.
Qed.

Lemma traversed_subterm_ids (proofNode c : z3.expr) :
  c ∈ traversed proofNode → subterm_ids c ⊆ subterm_ids proofNode.
Proof.
  intros (n & d & args & -> & Hc)%traversed_args. by apply subterm_ids_arg.
Qed.

Lemma size_difference_fresh (U V : gset N) (i : N) :
  i ∈ U → i ∉ V →
  size (U ∖ V) = Datatypes.S (size (U ∖ ({[ i ]} ∪ V))).
Proof.
  intros HU HV.
  assert (U ∖ V = {[ i ]} ∪ U ∖ ({[ i ]} ∪ V)) as ->.
  { apply set_eq. intros j. rewrite elem_of_union, !elem_of_difference,
      elem_of_union, elem_of_singleton.
    destruct (decide (j = i)) as [->|]; naive_solver. }
  rewrite size_union by set_solver. by rewrite size_singleton.
Qed.

Lemma premise_visit_potential (U : gset N) (proofNode c : z3.expr)
    (st st' : state) :
  subterm_ids c ⊆ U → stack_within U st →
  premise_visit proofNode c st = Ok st' →
  stack_within U st' ∧ (potential U st' ≤ potential U st)%nat.
Proof.
  intros Hc Hw Hv.
  destruct (premise_visit_Ok_inv _ _ _ _ Hv) as (Hs & Hvis & _).
  unfold stack_within, potential. rewrite Hs, Hvis.
  case_decide as Hin; [done|]. split.
  - intros x [->|Hx]%elem_of_cons; [done|by apply Hw].
  - cbn [length].
    rewrite (size_difference_fresh U (visited st) (z3.id c));
      [lia| |done].
    apply Hc, subterm_ids_self.
Qed.

Lemma loop_body_potential (U : gset N) (st st' : state) :
  stack_within U st → proofStack st ≠ [] → loop_body st = Ok st' →
  stack_within U st' ∧ (potential U st' < potential U st)%nat.
Proof.
  intros Hw Hne Hb.
  destruct (proofStack st) as [|x rest] eqn:Hs; [done|].
  destruct (loop_body_Ok_inv _ _ _ _ Hs Hb) as [_ Hfold].
  assert (Hpop : stack_within U (pop st) ∧
                 (potential U (pop st) ≤ potential U (pop st))%nat).
  { split; [|done]. intros y Hy. apply Hw. unfold pop in Hy.
    cbn [proofStack] in Hy. rewrite Hs in *. by right. }
  assert (Hlt : (potential U (pop st) < potential U st)%nat).
  { unfold potential, pop. cbn [proofStack visited]. rewrite Hs.
    cbn [tail length]. lia. }
  enough (stack_within U st' ∧
          (potential U st' ≤ potential U (pop st))%nat) as [? ?];
    [split; [done|lia]|].
  revert Hfold.
  apply (foldlM_inv (λ t, stack_within U t ∧
                          (potential U t ≤ potential U (pop st))%nat));
    [|done].
  intros c t t' Hc [Hwt Hpt] Hv.
  destruct (premise_visit_potential U x c t t') as [? ?]; [|done|done|].
  - etrans; [by apply traversed_subterm_ids|]. apply Hw. rewrite Hs. left.
  - split; [done|lia].
Qed.

Lemma cexGraph_loop_terminates (U : gset N) (fuel : nat) (st : state) :
  stack_within U st → (potential U st ≤ fuel)%nat →
  is_Some (cexGraph_loop fuel st).
Proof.
  revert st. induction fuel as [|fuel IH]; intros st Hw Hp;
    cbn [cexGraph_loop].
  - destruct (proofStack st) eqn:Hs; [by eexists|].
    unfold potential in Hp. rewrite Hs in Hp. simpl in Hp. lia.
  - destruct (proofStack st) as [|x rest] eqn:Hs; [by eexists|].
    destruct (loop_body st) as [st'|e] eqn:Hb; [|by eexists].
    destruct (loop_body_potential U st st') as [? ?]; [done| |done|].
    { by rewrite Hs. }
    apply IH; [done|lia].
Qed.

(** More fuel than needed changes nothing. *)
Lemma cexGraph_loop_mono (fuel k : nat) (st : state) (r : result state) :
  cexGraph_loop fuel st = Some r → cexGraph_loop (fuel + k) st = Some r.
Proof.
  revert st. induction fuel as [|fuel IH]; intros st; simpl.
  - destruct (proofStack st) eqn:Hs; [|done]. intros [= <-].
    destruct k; simpl; by rewrite Hs.
  - destruct (proofStack st) as [|x rest]; [done|].
    destruct (loop_body st) as [st'|e]; [apply IH|done].
Qed.

Lemma cexGraph_init_potential (_proof : z3.expr) (st0 : state) :
  cexGraph_init _proof = Ok st0 →
  stack_within (subterm_ids _proof) st0 ∧
  (potential (subterm_ids _proof) st0 ≤ fuel_bound _proof)%nat.
Proof.
  intros Hinit.
  destruct (cexGraph_init_Ok_inv _ _ Hinit)
    as (_ & root & lbl & Hroot & _ & ->).
  destruct (arg_Ok_inv _ _ _ Hroot) as (n & d & args & -> & _ & Hl).
  split.
  - intros x ->%list_elem_of_singleton.
    apply subterm_ids_arg. by eapply list_elem_of_lookup_2.
  - unfold potential, fuel_bound. cbn [proofStack visited length].
    pose proof (subseteq_size
      (subterm_ids (z3.App n d args) ∖ {[z3.id root]})
      (subterm_ids (z3.App n d args)) ltac:(set_solver)).
    lia.
Qed.

Lemma cexGraph_terminates (_proof : z3.expr) (k : nat) :
  ∃ r, cexGraph (fuel_bound _proof + k) _proof = Some r ∧
       cexGraph (fuel_bound _proof) _proof = Some r.
Proof.
  unfold cexGraph, cexGraph_run.
  destruct (cexGraph_init _proof) as [st0|e] eqn:Hinit; [|by eexists].
  destruct (cexGraph_init_potential _ _ Hinit) as [Hw Hp].
  destruct (cexGraph_loop_terminates _ _ _ Hw Hp) as [r Hr].
  rewrite (cexGraph_loop_mono _ k _ _ Hr), Hr.
  destruct r; by eexists.
Qed.

(** ** Each id is pushed once *)

Lemma premise_visit_pushed_once (popped : list N) (proofNode c : z3.expr)
    (st st' : state) :
  pushed_once popped st → premise_visit proofNode c st = Ok st' →
  pushed_once popped st'.
Proof.
  intros [Hnd Hvis] Hv.
  destruct (premise_visit_Ok_inv _ _ _ _ Hv) as (Hs & Hvs & _).
  unfold pushed_once. rewrite Hs, Hvs. case_decide as Hin; [done|].
  cbn [map]. split.
  - apply NoDup_app in Hnd as (Hp & Hdisj & Hst).
    apply NoDup_app. split_and!; [done| |].
    + intros i Hi [->|Hi']%elem_of_cons; [|by eapply Hdisj].
      apply Hin, Hvis, elem_of_app. by left.
    + apply NoDup_cons. split; [|done].
      intros Hc. apply Hin, Hvis, elem_of_app. by right.
  - intros i. rewrite elem_of_app, elem_of_cons, elem_of_union,
      elem_of_singleton, <- Hvis, elem_of_app. tauto.
Qed.

Lemma loop_body_pushed_once (popped : list N) (st st' : state)
    (proofNode : z3.expr) (rest : list z3.expr) :
  proofStack st = proofNode :: rest →
  pushed_once popped st → loop_body st = Ok st' →
  pushed_once (popped ++ [z3.id proofNode]) st'.
Proof.
  intros Hs Hp Hb.
  destruct (loop_body_Ok_inv _ _ _ _ Hs Hb) as [_ Hfold].
  revert Hfold.
  apply (foldlM_inv (pushed_once (popped ++ [z3.id proofNode]))).
  - intros c t t' _. apply premise_visit_pushed_once.
  - unfold pushed_once, pop in *. cbn [proofStack visited].
    rewrite Hs in *. cbn [tail map] in *.
    by rewrite <- !app_assoc.
Qed.

Lemma loop_steps_pushed_once (n : nat) (popped : list N) (st st' : state) :
  pushed_once popped st → loop_steps n st = Some st' →
  pushed_once (popped ++ popped_ids n st) st'.
Proof.
  revert popped st. induction n as [|n IH]; intros popped st Hp;
    cbn [loop_steps popped_ids].
  - intros [= <-]. by rewrite app_nil_r.
  - destruct (proofStack st) as [|x rest] eqn:Hs; [done|].
    destruct (loop_body st) as [t|e] eqn:Hb; [|done].
    intros Hn. rewrite cons_middle, (assoc_L (++) popped [z3.id x]).
    apply IH; [|done]. by eapply loop_body_pushed_once.
Qed.

Lemma cexGraph_init_pushed_once (_proof : z3.expr) (st0 : state) :
  cexGraph_init _proof = Ok st0 → pushed_once [] st0.
Proof.
  intros Hinit.
  destruct (cexGraph_init_Ok_inv _ _ Hinit) as (_ & root & lbl & _ & _ & ->).
  unfold pushed_once. cbn [proofStack visited map app]. split.
  - apply NoDup_singleton.
  - intros i. by rewrite list_elem_of_singleton, elem_of_singleton.
Qed.

(** C6.  Extraction terminates on every proof: [fuel_bound _proof]
    iterations always suffice, and with more the outcome is the same.  A
    premise is pushed only when its id is not in the visited set, and is
    put in that set by the push; so along any run no id occurs twice
    among the nodes already popped and those still on the stack, that is,
    each id is pushed at most once. *)
Theorem cexGraph_terminates_pushing_once (_proof : z3.expr) :
  (∀ k, ∃ r, cexGraph (fuel_bound _proof + k) _proof = Some r ∧
             cexGraph (fuel_bound _proof) _proof = Some r) ∧
  (∀ proofNode child t t',
     premise_visit proofNode child t = Ok t' →
     (z3.id child ∈ visited t ∧ proofStack t' = proofStack t) ∨
     ((z3.id child ∉ visited t) ∧ proofStack t' = child :: proofStack t ∧
       z3.id child ∈ visited t')) ∧
  (∀ st0 n st,
     cexGraph_init _proof = Ok st0 → loop_steps n st0 = Some st →
     NoDup (popped_ids n st0 ++ map z3.id (proofStack st)) ∧
     (n ≤ fuel_bound _proof)%nat).
Proof.
  split_and!.
  - apply cexGraph_terminates.
  - intros proofNode child t t' Hv.
    destruct (premise_visit_Ok_inv _ _ _ _ Hv) as (Hs & Hvs & _).
    rewrite Hs, Hvs. case_decide; [by left|right].
    split_and!; [done|done|set_solver].
  - intros st0 n st Hinit Hn. split.
    + apply cexGraph_init_pushed_once in Hinit.
      by destruct (loop_steps_pushed_once _ _ _ _ Hinit Hn) as [? _].
    + destruct (cexGraph_init_potential _ _ Hinit) as [Hw Hp].
      enough (n + potential (subterm_ids _proof) st ≤
              potential (subterm_ids _proof) st0)%nat by lia.
      clear Hp Hinit. revert st0 Hw Hn.
      induction n as [|n IH]; intros st0 Hw; cbn [loop_steps].
      * by intros [= <-].
      * destruct (proofStack st0) as [|x rest] eqn:Hs; [done|].
        destruct (loop_body st0) as [t|e] eqn:Hb; [|done].
        destruct (loop_body_potential _ st0 t Hw) as [? ?];
          [by rewrite Hs|done|].
        intros Hn. specialize (IH t ltac:(done) Hn). lia.
Qed.

(** ** The graph of a proof DAG *)

Lemma premise_visit_graph (proofNode c : z3.expr) (st st' : state) :
  is_Some (nodes (graph st) !! z3.id proofNode) →
  premise_visit proofNode c st = Ok st' →
  (is_Some (nodes (graph st) !! z3.id c) ∧
     nodes (graph st') = nodes (graph st) ∧
     ∀ k, k ≠ z3.id proofNode →
          edges_at (graph st') k = edges_at (graph st) k) ∨
  (¬ is_Some (nodes (graph st) !! z3.id c) ∧
     (∃ lbl, node_label c = Ok lbl ∧
             nodes (graph st') = <[ z3.id c := lbl ]> (nodes (graph st))) ∧
     edges_at (graph st') (z3.id c) = [] ∧
     ∀ k, k ≠ z3.id proofNode → k ≠ z3.id c →
          edges_at (graph st') k = edges_at (graph st) k).
Proof.
  intros HX Hv.
  destruct (premise_visit_Ok_inv _ _ _ _ Hv) as (_ & _ & g2 & Hg2 & ->).
  cbn [nodes]. case_decide as Hin.
  - subst g2. left. split_and!; [done|done|].
    intros k Hk. rewrite edges_at_insert. case_decide; [done|].
    by destruct (graph st).
  - destruct Hg2 as (lbl & Hlbl & ->). right. cbn [nodes].
    assert (Hne : z3.id proofNode ≠ z3.id c).
    { intros Heq. apply Hin. by rewrite <- Heq. }
    split_and!; [done|by exists lbl| |].
    + unfold edges_at at 1. cbn [edges].
      rewrite lookup_insert_ne by done. by rewrite lookup_insert_eq.
    + intros k Hk Hkc. unfold edges_at at 1. cbn [edges].
      by rewrite !lookup_insert_ne.
Qed.

Section ProofDag.

Variable r : z3.expr.
Hypothesis Hdag : proof_dag r.

Lemma proof_dag_id_inj (a b : z3.expr) :
  reach r a → reach r b → z3.id a = z3.id b → a = b.
Proof using Hdag. destruct Hdag as [Hinj _]. apply Hinj. Qed.

Lemma stack_id_elem (st : state) (x : z3.expr) :
  x ∈ proofStack st → z3.id x ∈ map z3.id (proofStack st).
Proof. intros Hx. apply list_elem_of_fmap. by exists x. Qed.

Lemma traversal_inv_pop (st : state) (X : z3.expr) (rest : list z3.expr) :
  traversal_inv r None st → proofStack st = X :: rest →
  traversal_inv r (Some (X, [])) (pop st).
Proof using Hdag.
  intros [Hsr Hnd Hsv Hse Hnv Hvr Hlb Hev Hdone Hcur Hroot] Hs.
  rewrite Hs in *. cbn [map] in *.
  apply NoDup_cons in Hnd as [HXs Hnd].
  assert (HXr : reach r X) by (apply Hsr; left).
  assert (HXv : z3.id X ∈ visited st) by (apply Hsv; left).
  split; unfold pop; rewrite ?Hs; cbn [proofStack visited graph tail]; try done.
  - intros x Hx. apply Hsr. by right.
  - intros x Hx. apply Hsv. by right.
  - intros x Hx. apply Hse. by right.
  - intros x Hxr Hxv Hxs.
    destruct (decide (z3.id x = z3.id X)) as [Heq|Hne].
    + left. exists []. by rewrite (proof_dag_id_inj x X).
    + right. destruct (Hdone x) as [[pre [=]]|?]; [done|done| |done].
      by intros [?|?]%elem_of_cons.
  - intros X' pre [= <- <-]. split_and!; [done|done|done| |].
    + apply Hse. left.
    + by intros c ?%elem_of_nil.
Qed.

Lemma traversal_inv_visit (X c : z3.expr) (pre : list z3.expr)
    (st st' : state) :
  traversal_inv r (Some (X, pre)) st → reach r c →
  premise_visit X c st = Ok st' →
  traversal_inv r (Some (X, pre ++ [c])) st'.
Proof using Hdag.
  intros [Hsr Hnd Hsv Hse Hnv Hvr Hlb Hev Hdone Hcur Hroot] Hcr Hv.
  destruct (Hcur X pre eq_refl) as (HXr & HXv & HXs & HXe & Hpre).
  assert (HXn : is_Some (nodes (graph st) !! z3.id X)).
  { apply elem_of_dom. by rewrite Hnv. }
  destruct (premise_visit_Ok_inv _ _ _ _ Hv) as (Hs & Hvs & _).
  destruct (premise_visit_edges _ _ _ _ HXn Hv) as [HE1 _].
  assert (Hstack_ne : ∀ x, x ∈ proofStack st → z3.id x ≠ z3.id X).
  { intros x Hx Heq. apply HXs. rewrite <- Heq. by apply stack_id_elem. }
  destruct (premise_visit_graph _ _ _ _ HXn Hv)
    as [(Hcn & Hnodes & Hedges)|(Hcn & (lbl & Hlbl & Hnodes) & Hec & Hedges)].
  - (* the premise was visited before *)
    assert (Hc : z3.id c ∈ visited st).
    { rewrite <- Hnv. by apply elem_of_dom. }
    rewrite decide_True in Hs by done. rewrite decide_True in Hvs by done.
    split; rewrite ?Hs, ?Hvs, ?Hnodes; try done.
    + intros x Hx. rewrite Hedges by (by apply Hstack_ne). by apply Hse.
    + intros k Hk. rewrite Hedges; [by apply Hev|]. by intros ->.
    + intros x Hxr Hxv Hxs.
      destruct (decide (z3.id x = z3.id X)) as [Heq|Hne].
      * left. exists (pre ++ [c]). by rewrite (proof_dag_id_inj x X).
      * right. rewrite Hedges by done.
        destruct (Hdone x) as [[pre' Hx]|?]; [done..| |done].
        by simplify_eq.
    + intros X' pre' [= <- <-]. split_and!; [done|done|done| |].
      * by rewrite HE1, HXe, map_app.
      * intros c' [?| ->%list_elem_of_singleton]%elem_of_app; [|done].
        by apply Hpre.
  - (* the premise is new *)
    assert (Hc : z3.id c ∉ visited st).
    { rewrite <- Hnv. by rewrite elem_of_dom. }
    assert (HcX : z3.id X ≠ z3.id c).
    { intros Heq. apply Hc. by rewrite <- Heq. }
    rewrite decide_False in Hs by done.
    rewrite decide_False in Hvs by done.
    assert (Hstack_c : ∀ x, x ∈ proofStack st → z3.id x ≠ z3.id c).
    { intros x Hx Heq. apply Hc. rewrite <- Heq. by apply Hsv. }
    split; rewrite ?Hs, ?Hvs, ?Hnodes; cbn [map].
    + intros x [->|Hx]%elem_of_cons; [done|by apply Hsr].
    + apply NoDup_cons. split; [|done].
      intros (x & Heq & Hx)%list_elem_of_fmap. by eapply Hstack_c.
    + intros x [->|Hx]%elem_of_cons; [set_solver|].
      apply elem_of_union. right. by apply Hsv.
    + intros x [->|Hx]%elem_of_cons; [done|].
      rewrite Hedges; [by apply Hse|by apply Hstack_ne|by apply Hstack_c].
    + by rewrite dom_insert_L, Hnv.
    + intros i [->%elem_of_singleton|Hi]%elem_of_union; [by exists c|].
      by apply Hvr.
    + intros x Hxr [Hxc%elem_of_singleton|Hxv]%elem_of_union.
      * rewrite (proof_dag_id_inj x c) by done.
        exists lbl. by rewrite lookup_insert_eq.
      * destruct (Hlb x Hxr Hxv) as (lbl' & ? & ?). exists lbl'.
        split; [done|]. rewrite lookup_insert_ne; [done|].
        intros Heq. apply Hc. by rewrite Heq.
    + intros k [Hkc%not_elem_of_singleton Hk]%not_elem_of_union.
      rewrite Hedges; [by apply Hev| |done]. by intros ->.
    + intros x Hxr Hxv [Hxc Hxs]%not_elem_of_cons.
      apply elem_of_union in Hxv as [?%elem_of_singleton|Hxv]; [done|].
      destruct (decide (z3.id x = z3.id X)) as [Heq|Hne].
      * left. exists (pre ++ [c]). by rewrite (proof_dag_id_inj x X).
      * right. rewrite Hedges by done.
        destruct (Hdone x) as [[pre' Hx]|[? Hp]]; [done..|by simplify_eq|].
        split; [done|]. intros c' Hc'. apply elem_of_union. right.
        by apply Hp.
    + intros X' pre' [= <- <-]. split_and!; [done| | | |].
      * apply elem_of_union. by right.
      * by apply not_elem_of_cons.
      * by rewrite HE1, HXe, map_app.
      * intros c' [?| ->%list_elem_of_singleton]%elem_of_app; [|set_solver].
        apply elem_of_union. right. by apply Hpre.
    + apply elem_of_union. by right.
Qed.

Lemma traversal_inv_finish (X : z3.expr) (st : state) :
  traversal_inv r (Some (X, premises X)) st → traversal_inv r None st.
Proof.
  intros [Hsr Hnd Hsv Hse Hnv Hvr Hlb Hev Hdone Hcur Hroot].
  split; try done.
  intros x Hxr Hxv Hxs. right.
  destruct (Hdone x Hxr Hxv Hxs) as [[pre Heq]|?]; [|done].
  destruct (Hcur _ _ Heq) as (_ & _ & _ & ? & ?). by simplify_eq.
Qed.

Lemma traversal_inv_fold (X : z3.expr) (cs pre : list z3.expr)
    (st st' : state) :
  (∀ c, c ∈ cs → reach r c) →
  traversal_inv r (Some (X, pre)) st →
  foldlM (premise_visit X) cs st = Ok st' →
  traversal_inv r (Some (X, pre ++ cs)) st'.
Proof using Hdag.
  revert pre st. induction cs as [|c cs IH]; intros pre st Hcs Hinv; simpl.
  - intros [= <-]. by rewrite app_nil_r.
  - destruct (premise_visit X c st) as [t|e] eqn:Hv; rsimpl; [|done].
    intros Hf. rewrite cons_middle, (assoc_L (++)).
    apply (IH _ t); [|by eapply traversal_inv_visit; [|apply Hcs; left|]|done].
    intros c' Hc'. apply Hcs. by right.
Qed.

Lemma traversal_inv_loop_body (st st' : state) :
  traversal_inv r None st → proofStack st ≠ [] → loop_body st = Ok st' →
  traversal_inv r None st'.
Proof using Hdag.
  intros Hinv Hne Hb.
  destruct (proofStack st) as [|X rest] eqn:Hs; [done|].
  destruct (loop_body_Ok_inv _ _ _ _ Hs Hb) as [_ Hfold].
  assert (HXr : reach r X).
  { apply (inv_stack_reach _ _ _ Hinv). rewrite Hs. left. }
  rewrite traversed_premises in Hfold by (by apply Hdag).
  apply (traversal_inv_finish X).
  apply (traversal_inv_fold X (premises X) [] (pop st)); [| |done].
  - intros c Hc. by eapply reach_premise.
  - by eapply traversal_inv_pop.
Qed.

Lemma traversal_inv_init (_proof : z3.expr) (st0 : state) :
  z3.arg _proof 0 = Ok r → cexGraph_init _proof = Ok st0 →
  traversal_inv r None st0.
Proof using Hdag.
  intros Hr Hinit.
  destruct (cexGraph_init_Ok_inv _ _ Hinit)
    as (_ & root & lbl & Hroot & Hlbl & ->).
  rewrite Hr in Hroot. injection Hroot as <-.
  split; cbn [proofStack visited graph nodes edges map].
  - intros x ->%list_elem_of_singleton. constructor.
  - apply NoDup_singleton.
  - intros x ->%list_elem_of_singleton. by apply elem_of_singleton.
  - done.
  - by rewrite dom_singleton_L.
  - intros i ->%elem_of_singleton. exists r. split; [constructor|done].
  - intros x Hxr Hx%elem_of_singleton.
    rewrite (proof_dag_id_inj x r Hxr (reach_root r) Hx).
    exists lbl. by rewrite lookup_singleton_eq.
  - done.
  - intros x _ Hx%elem_of_singleton Hxs. exfalso. apply Hxs.
    rewrite Hx. apply list_elem_of_singleton. done.
  - done.
  - by apply elem_of_singleton.
Qed.

(** When the stack is empty the graph is the proof DAG: every node
    reachable from the seed is a visited key of the node map, labelled by
    its fact, and its edge list is the list of its premises' ids. *)
Lemma traversal_inv_final (st : state) :
  traversal_inv r None st → proofStack st = [] →
  ∀ x, reach r x →
    z3.id x ∈ visited st ∧
    edges_at (graph st) (z3.id x) = map z3.id (premises x).
Proof.
  intros Hinv Hs.
  assert (Hstep : ∀ x, reach r x → z3.id x ∈ visited st →
    edges_at (graph st) (z3.id x) = map z3.id (premises x) ∧
    ∀ c, c ∈ premises x → z3.id c ∈ visited st).
  { intros x Hxr Hxv.
    destruct (inv_done _ _ _ Hinv x Hxr Hxv) as [[? [=]]|?]; [|done].
    rewrite Hs. by intros ?%elem_of_nil. }
  assert (Hvis : ∀ x, reach r x → z3.id x ∈ visited st).
  { intros x Hx. induction Hx as [|x c Hx IH Hc].
    - apply (inv_root _ _ _ Hinv).
    - by apply (Hstep x Hx IH). }
  intros x Hx. split; [by apply Hvis|]. by apply Hstep, Hvis.
Qed.

End ProofDag.

Lemma occurs_once_NoDup {A : Type} (a : A) (l : list A) :
  NoDup l → a ∈ l → occurs_once a l.
Proof.
  intros Hnd (l1 & l2 & ->)%list_elem_of_split.
  exists l1, l2. split; [done|].
  apply NoDup_app in Hnd as (_ & Hdisj & Hnd2).
  apply NoDup_cons in Hnd2 as [? _]. split; [|done].
  intros Ha. apply (Hdisj a Ha). left.
Qed.

Lemma occurs_once_map_id (P : z3.expr) (l : list z3.expr) :
  (∀ c, c ∈ l → z3.id c = z3.id P → c = P) →
  occurs_once P l → occurs_once (z3.id P) (map z3.id l).
Proof.
  intros Hinj (l1 & l2 & -> & H1 & H2).
  exists (map z3.id l1), (map z3.id l2). rewrite map_app. split; [done|].
  split.
  - intros (c & Heq & Hc)%list_elem_of_fmap.
    rewrite (Hinj c) in Hc; [done| |done]. apply elem_of_app. by left.
  - intros (c & Heq & Hc)%list_elem_of_fmap.
    rewrite (Hinj c) in Hc; [done| |done]. apply elem_of_app. right. by right.
Qed.

(** X1.  The extracted graph is the proof DAG below the seed: its keys
    are the ids of the reachable nodes, each labelled by its fact, and the
    edge list of a node is the list of the ids of its premises, in order. *)
Proposition cexGraph_extracts_proof_dag
    (fuel : nat) (_proof r : z3.expr) (g : CexGraph) :
  z3.arg _proof 0 = Ok r → proof_dag r →
  cexGraph fuel _proof = Some (Ok g) →
  (∀ i, i ∈ dom (nodes g) ↔ ∃ x, reach r x ∧ z3.id x = i) ∧
  (∀ x, reach r x →
        (∃ lbl, node_label x = Ok lbl ∧ nodes g !! z3.id x = Some lbl) ∧
        edges_at g (z3.id x) = map z3.id (premises x)).
Proof.
  intros Hr Hdag Hg.
  destruct (cexGraph_Ok_inv _ _ _ Hg) as (st0 & n & st & Hinit & Hn & Hs & <-).
  assert (Hinv : traversal_inv r None st).
  { revert Hn. apply (loop_steps_inv (traversal_inv r None)).
    - by apply traversal_inv_loop_body.
    - by eapply traversal_inv_init. }
  pose proof (traversal_inv_final r st Hinv Hs) as Hfinal.
  split.
  - intros i. rewrite (inv_nodes_visited _ _ _ Hinv). split.
    + apply (inv_visited_reach _ _ _ Hinv).
    + intros (x & Hx & <-). by apply Hfinal.
  - intros x Hx. destruct (Hfinal x Hx) as [Hv He].
    split; [by apply (inv_labels _ _ _ Hinv)|done].
Qed.

Lemma occurrences_not_elem (p : N) (l : list N) :
  p ∉ l → occurrences p l = 0%nat.
Proof.
  unfold occurrences. induction l as [|k l IH]; [done|].
  intros [Hk Hl]%not_elem_of_cons.
  rewrite filter_cons_False by (intros ->; done). by apply IH.
Qed.

Lemma occurrences_elem (p : N) (l : list N) :
  p ∈ l → (1 ≤ occurrences p l)%nat.
Proof.
  intros (l1 & l2 & ->)%list_elem_of_split. unfold occurrences.
  rewrite filter_app, filter_cons_True, length_app by done. simpl. lia.
Qed.

Lemma occurrences_occurs_once (p : N) (l : list N) :
  occurs_once p l → occurrences p l = 1%nat.
Proof.
  intros (l1 & l2 & -> & H1 & H2).
  pose proof (occurrences_not_elem p l1 H1) as E1.
  pose proof (occurrences_not_elem p l2 H2) as E2.
  unfold occurrences in *.
  rewrite filter_app, filter_cons_True, length_app by done. simpl.
  rewrite E1, E2. done.
Qed.

Lemma sum_list_with_zero {A : Type} (f : A → nat) (l : list A) :
  (∀ x, x ∈ l → f x = 0%nat) → sum_list_with f l = 0%nat.
Proof.
  induction l as [|x l IH]; [done|]. intros H. simpl.
  rewrite (H x) by left. apply IH. intros y Hy. apply H. by right.
Qed.

(** The edges into [p] of a map of edge lists, split at one key. *)
Lemma edge_lists_split (p a : N) (m : gmap N (list N)) :
  sum_list_with (λ kl, occurrences p kl.2) (map_to_list m) =
  (occurrences p (default [] (m !! a)) +
   sum_list_with (λ kl, occurrences p kl.2) (map_to_list (delete a m)))%nat.
Proof.
  destruct (m !! a) as [l|] eqn:Ha.
  - by rewrite <- (map_to_list_delete m a l Ha).
  - by rewrite delete_id.
Qed.

(** When only the edge lists of [a] and [b] contain [p], the edges into
    [p] are those from [a] and those from [b]. *)
Lemma edges_into_two (g : CexGraph) (a b p : N) :
  a ≠ b →
  (∀ k, k ≠ a → k ≠ b → p ∉ edges_at g k) →
  edges_into g p = (edge_count g a p + edge_count g b p)%nat.
Proof.
  intros Hab Honly. unfold edges_into, edge_count, edges_at.
  rewrite (edge_lists_split p a), (edge_lists_split p b (delete a _)).
  rewrite lookup_delete_ne by done.
  rewrite sum_list_with_zero; [lia|].
  intros [k l] Hkl%elem_of_map_to_list. cbn [snd].
  apply lookup_delete_Some in Hkl as [Hkb Hkl].
  apply lookup_delete_Some in Hkl as [Hka Hkl].
  apply occurrences_not_elem.
  specialize (Honly k (not_eq_sym Hka) (not_eq_sym Hkb)).
  unfold edges_at in Honly. by rewrite Hkl in Honly.
Qed.

(** C2.  In a proof DAG where two distinct nodes [A] and [B] both have
    the node [P] among their premises, the extracted graph has a node-map
    entry for the id of [P] (one, as the node map is a map), labelled by
    the fact of [P].  Each of the two parents gets one edge to [P] per
    premise position at which it lists [P]: its edge list holds the id of
    [P] at exactly those positions, so the number of its edges to [P] is
    the number of those positions, at least one, and exactly one when the
    parent lists [P] once.  When [A] and [B] are the only nodes with
    premise [P], no other edge list contains it, and the edges into [P]
    are as many as the positions in [A] and in [B] together.  [P] is
    popped, hence expanded, exactly once in the run. *)
Theorem shared_premise_one_edge_per_position
    (fuel : nat) (_proof r A B P : z3.expr) (st0 st : state) :
  z3.arg _proof 0 = Ok r → proof_dag r →
  cexGraph_init _proof = Ok st0 →
  cexGraph_loop fuel st0 = Some (Ok st) →
  reach r A → reach r B → A ≠ B →
  P ∈ premises A → P ∈ premises B →
  cexGraph fuel _proof = Some (Ok (graph st)) ∧
  (∃ lbl, node_label P = Ok lbl ∧
          nodes (graph st) !! z3.id P = Some lbl) ∧
  z3.id A ≠ z3.id B ∧
  (∀ X, X = A ∨ X = B →
        (∀ i, edges_at (graph st) (z3.id X) !! i = Some (z3.id P) ↔
              premises X !! i = Some P) ∧
        edge_count (graph st) (z3.id X) (z3.id P) = premise_positions X P ∧
        (1 ≤ premise_positions X P)%nat ∧
        (occurs_once P (premises X) →
         edge_count (graph st) (z3.id X) (z3.id P) = 1%nat)) ∧
  ((∀ x, reach r x → P ∈ premises x → x = A ∨ x = B) →
   (∀ k, k ≠ z3.id A → k ≠ z3.id B →
         z3.id P ∉ edges_at (graph st) k) ∧
   edges_into (graph st) (z3.id P) =
   (premise_positions A P + premise_positions B P)%nat) ∧
  occurs_once (z3.id P) (popped_ids fuel st0).
Proof.
  intros Hr Hdag Hinit Hloop HA HB HAB HPA HPB.
  destruct (cexGraph_loop_Ok_inv _ _ _ Hloop) as (n & _ & Hn & Hs & Hpop).
  assert (Hinv : traversal_inv r None st).
  { revert Hn. apply (loop_steps_inv (traversal_inv r None)).
    - by apply traversal_inv_loop_body.
    - by eapply traversal_inv_init. }
  pose proof (traversal_inv_final r st Hinv Hs) as Hfinal.
  assert (HP : reach r P) by by apply (reach_premise r A).
  assert (Hinj : ∀ X c, reach r X → c ∈ premises X →
                        z3.id c = z3.id P → c = P).
  { intros X c HX Hc. apply (proof_dag_id_inj r Hdag); [|done].
    by eapply reach_premise. }
  assert (HidAB : z3.id A ≠ z3.id B).
  { intros Heq. apply HAB. by apply (proof_dag_id_inj r Hdag). }
  assert (Honly : (∀ x, reach r x → P ∈ premises x → x = A ∨ x = B) →
                  ∀ k, k ≠ z3.id A → k ≠ z3.id B →
                       z3.id P ∉ edges_at (graph st) k).
  { intros Hpar k HkA HkB Hk.
    destruct (decide (k ∈ visited st)) as [Hkv|Hkv].
    + destruct (inv_visited_reach _ _ _ Hinv k Hkv) as (x & Hx & <-).
      destruct (Hfinal x Hx) as [_ He]. rewrite He in Hk.
      apply list_elem_of_fmap in Hk as (c & Heq & Hc).
      rewrite (Hinj x c Hx Hc) in Hc by done.
      destruct (Hpar x Hx Hc) as [->| ->]; done.
    + rewrite (inv_edges_visited _ _ _ Hinv k Hkv) in Hk.
      by apply elem_of_nil in Hk. }
  destruct (Hfinal P HP) as [HPv _].
  split_and!.
  - unfold cexGraph, cexGraph_run. by rewrite Hinit, Hloop.
  - by apply (inv_labels _ _ _ Hinv).
  - done.
  - intros X HX.
    assert (HXr : reach r X) by by destruct HX as [->| ->].
    assert (HPX : P ∈ premises X) by by destruct HX as [->| ->].
    destruct (Hfinal X HXr) as [_ He].
    unfold edge_count, premise_positions. rewrite He. split_and!.
    + intros i. rewrite list_lookup_fmap. split.
      * destruct (premises X !! i) as [c|] eqn:Hc; [|done].
        intros [= Heq]. f_equal. apply (Hinj X c HXr); [|done].
        by eapply list_elem_of_lookup_2.
      * by intros ->.
    + done.
    + apply occurrences_elem, list_elem_of_fmap. by exists P.
    + intros Honce. apply occurrences_occurs_once.
      apply occurs_once_map_id; [|done]. intros c. by apply Hinj.
  - intros Hpar. split; [by apply Honly|].
    rewrite (edges_into_two _ (z3.id A) (z3.id B)); [|done|by apply Honly].
    unfold edge_count, premise_positions.
    destruct (Hfinal A HA) as [_ ->]. by destruct (Hfinal B HB) as [_ ->].
  - rewrite Hpop.
    pose proof (loop_steps_pushed_once n [] st0 st
                  (cexGraph_init_pushed_once _ _ Hinit) Hn) as [Hnd Hiff].
    rewrite Hs in Hnd, Hiff. cbn [map app] in Hnd, Hiff.
    rewrite app_nil_r in Hnd, Hiff.
    apply occurs_once_NoDup; [done|]. by apply Hiff.
Qed.

(** * Further properties of the code *)

(** ** [arguments] and the label of a node *)

(** X2.  [arguments] renders every argument of an application, in
    argument order and without an engine exception, so the result has as
    many entries as [num_args()]; on anything else it fails with its own
    assertion. *)
Theorem arguments_renders_in_order (e : z3.expr) :
  (z3.is_app e = false →
     arguments e = Throw (smtAssertFailed arguments_is_app)) ∧
  (∀ n d args, e = z3.App n d args →
     arguments e = Ok (map to_string args) ∧
     z3.num_args e = Ok (Z.of_nat (length (map to_string args))) ∧
     ∀ i a, args !! i = Some a →
            map to_string args !! i = Some (to_string a)).
Proof.
  split.
  - by destruct e.
  - intros n d args ->. split_and!.
    + apply arguments_App.
    + cbn [z3.num_args]. by rewrite length_map.
    + intros i a Ha. by rewrite list_lookup_fmap, Ha.
Qed.

(** X3.  The label [{name(fact(e)), arguments(fact(e))}] of a proof node
    exists exactly when the fact of the node is an application, and is then
    the symbol of the fact with the renderings of the fact's arguments.
    Otherwise labelling fails by assertion: in [fact] when the node is not
    an application, in [name] when its fact is not one. *)
Theorem node_label_characterised (e : z3.expr) :
  (∀ lbl, node_label e = Ok lbl ↔
          ∃ n d args, fact e = Ok (z3.App n d args) ∧
                      lbl = (z3.symbol d, map to_string args)) ∧
  (∀ x, node_label e = Throw x ↔
        (z3.is_app e = false ∧ x = smtAssertFailed fact_is_app) ∨
        ((∃ f, fact e = Ok f ∧ z3.is_app f = false) ∧
         x = smtAssertFailed name_is_app)).
Proof.
  assert (Happ : ∀ n d args,
    fact e = Ok (z3.App n d args) →
    node_label e = Ok (z3.symbol d, map to_string args)).
  { intros n d args Hf. unfold node_label. rewrite Hf. rsimpl.
    cbn [name z3.is_app z3.decl]. rsimpl. rewrite arguments_App. by rsimpl. }
  split.
  - intros lbl. split.
    + intros Hl. destruct (fact e) as [f|x] eqn:Hf.
      * destruct f as [n d args|n i|n b].
        -- exists n, d, args. split; [done|].
           rewrite (Happ _ _ _ eq_refl) in Hl. by injection Hl.
        -- unfold node_label in Hl. rewrite Hf in Hl. by rsimpl.
        -- unfold node_label in Hl. rewrite Hf in Hl. by rsimpl.
      * unfold node_label in Hl. rewrite Hf in Hl. by rsimpl.
    + intros (n & d & args & Hf & ->). by apply (Happ n).
  - intros x. split; [apply node_label_Throw|].
    intros [[Hn ->]|[(f & Hf & Hn) ->]].
    + unfold node_label. rewrite (fact_not_app _ Hn). by rsimpl.
    + unfold node_label. rewrite Hf. rsimpl. by destruct f.
Qed.

(** X4.  [fact] never makes an out-of-range or otherwise invalid call
    into the engine: on an application it returns the node itself or one
    of its arguments, and on anything else it fails with its own
    assertion. *)
Theorem fact_never_throws_z3_exception (e : z3.expr) :
  (z3.is_app e = false → fact e = Throw (smtAssertFailed fact_is_app)) ∧
  (∀ n d args, e = z3.App n d args →
     ∃ f, fact e = Ok f ∧ (args = [] ∧ f = e ∨ f ∈ args)) ∧
  (∀ code, fact e ≠ Throw (z3_exception code)).
Proof.
  split_and!.
  - apply fact_not_app.
  - intros n d args ->. apply fact_App_Ok.
  - intros code. destruct e as [n d args|n i|n b]; [|done|done].
    destruct (fact_App_Ok n d args) as (f & -> & _). done.
Qed.

(** ** How [cexGraph] can fail *)

Lemma loop_body_Throw_sites (st : state) (x : exn) :
  proofStack st ≠ [] → loop_body st = Throw x →
  x = smtAssertFailed cexGraph_popped_in_nodes ∨
  x = smtAssertFailed cexGraph_hyper_has_args ∨
  x = smtAssertFailed fact_is_app ∨
  x = smtAssertFailed name_is_app.
Proof.
  intros Hne Hb. destruct (proofStack st) as [|X rest] eqn:Hs; [done|].
  destruct (loop_body_Throw_inv _ _ _ _ Hs Hb)
    as [[_ ->]|[(_ & _ & ->)|(c & _ & Hc)]]; [by left|by right; left|].
  apply node_label_Throw in Hc as [[_ ->]|[_ ->]]; auto.
Qed.

Lemma cexGraph_entry_Ok_is_app (_proof : z3.expr) :
  cexGraph_entry _proof = Ok tt → z3.is_app _proof = true.
Proof. intros He. by apply cexGraph_entry_Ok_iff in He as [? _]. Qed.

Lemma cexGraph_seed_z3_exception (_proof : z3.expr) (code : Z3_error_code) :
  cexGraph_entry _proof = Ok tt →
  cexGraph_seed _proof = Throw (z3_exception code) →
  code = Z3_IOB ∧ ∃ n d, _proof = z3.App n d [] ∧
                         z3.decl_kind d = z3.Z3_OP_FALSE.
Proof.
  intros He Hseed.
  apply cexGraph_seed_Throw_inv in Hseed as [Ha|(root & _ & Hl)].
  - apply arg_Throw in Ha as [[Hn _]|[(k & Hk & Hr) [= ->]]].
    { by rewrite (cexGraph_entry_Ok_is_app _ He) in Hn. }
    split; [done|].
    destruct _proof as [n d args| |]; [|done|done].
    cbn [z3.num_args] in Hk. injection Hk as <-.
    destruct args as [|a args]; [|cbn [length] in Hr; lia].
    exists n, d. split; [done|].
    apply cexGraph_entry_Ok_iff in He as (_ & f & d' & Hf & Hd & Hk).
    injection Hf as <-. cbn [z3.decl] in Hd. by simplify_eq.
  - apply node_label_Throw in Hl as [[_ ?]|[_ ?]]; done.
Qed.

(** X5.  [cexGraph] ends in a [z3::exception] in exactly two cases: the
    root is an application whose fact is not one (the engine rejects
    [decl]), or the root is the bare constant [false] (its argument 0 is
    out of range).  In particular the loop itself never throws one. *)
Theorem cexGraph_z3_exception_iff
    (fuel : nat) (_proof : z3.expr) (code : Z3_error_code) :
  cexGraph fuel _proof = Some (Throw (z3_exception code)) ↔
  (code = Z3_INVALID_ARG ∧ ∃ f, fact _proof = Ok f ∧ z3.is_app f = false) ∨
  (code = Z3_IOB ∧ ∃ n d, _proof = z3.App n d [] ∧
                          z3.decl_kind d = z3.Z3_OP_FALSE).
Proof.
  split.
  - intros Hthrow.
    apply cexGraph_Throw_inv in Hthrow
      as [Hinit|(st0 & m & st & _ & _ & Hne & Hb)].
    + apply cexGraph_init_Throw_inv in Hinit as [He|[He Hseed]].
      * apply cexGraph_entry_Throw_inv in He
          as [[_ ?]|[[Hf [= ->]]|[_ ?]]]; [done| |done]. by left.
      * right. by apply cexGraph_seed_z3_exception.
    + apply (loop_body_Throw_sites _ _ Hne) in Hb as [?|[?|[?|?]]]; done.
  - intros [[-> (f & Hf & Hn)]|[-> (n & d & -> & Hd)]].
    + apply cexGraph_entry_Throw. unfold cexGraph_entry.
      destruct (z3.is_app _proof) eqn:Happ.
      * rsimpl. rewrite Hf. rsimpl. by destruct f.
      * by rewrite (fact_not_app _ Happ) in Hf.
    + assert (He : cexGraph_entry (z3.App n d []) = Ok tt).
      { apply cexGraph_entry_Ok_iff. split; [done|].
        by exists (z3.App n d []), d. }
      unfold cexGraph, cexGraph_run, cexGraph_init. by rewrite He.
Qed.

(** X6.  The two entry assertions: extraction fails at the first exactly
    when the proof is not an application, and at the second exactly when
    the fact of the root is an application that is not declared [false]. *)
Theorem cexGraph_entry_assertions_iff (fuel : nat) (_proof : z3.expr) :
  (cexGraph fuel _proof =
     Some (Throw (smtAssertFailed cexGraph_proof_is_app)) ↔
   z3.is_app _proof = false) ∧
  (cexGraph fuel _proof =
     Some (Throw (smtAssertFailed cexGraph_root_fact_false)) ↔
   ∃ f d, fact _proof = Ok f ∧ z3.decl f = Ok d ∧
          z3.decl_kind d ≠ z3.Z3_OP_FALSE).
Proof.
  assert (Hback : ∀ site,
    cexGraph fuel _proof = Some (Throw (smtAssertFailed site)) →
    site = cexGraph_proof_is_app ∨ site = cexGraph_root_fact_false →
    cexGraph_entry _proof = Throw (smtAssertFailed site)).
  { intros site Hthrow Hsite.
    apply cexGraph_Throw_inv in Hthrow
      as [Hinit|(st0 & m & st & _ & _ & Hne & Hb)].
    - apply cexGraph_init_Throw_inv in Hinit as [He|[_ Hseed]]; [done|].
      apply cexGraph_seed_Throw_inv in Hseed as [Ha|(root & _ & Hl)].
      + apply arg_Throw in Ha as [[_ ?]|[_ ?]]; done.
      + apply node_label_Throw in Hl as [[_ ?]|[_ ?]];
          destruct Hsite; by simplify_eq.
    - apply (loop_body_Throw_sites _ _ Hne) in Hb as [?|[?|[?|?]]];
        destruct Hsite; by simplify_eq. }
  split; split.
  - intros Hthrow. apply Hback in Hthrow; [|by left].
    apply cexGraph_entry_Throw_inv in Hthrow
      as [[? _]|[[_ ?]|[_ ?]]]; done.
  - intros Hn. apply cexGraph_entry_Throw. unfold cexGraph_entry.
    by rewrite Hn.
  - intros Hthrow. apply Hback in Hthrow; [|by right].
    apply cexGraph_entry_Throw_inv in Hthrow
      as [[_ ?]|[[_ ?]|[? _]]]; done.
  - intros (f & d & Hf & Hd & Hk). apply cexGraph_entry_Throw.
    unfold cexGraph_entry.
    destruct (z3.is_app _proof) eqn:Happ.
    + rsimpl. rewrite Hf. rsimpl. rewrite Hd. rsimpl.
      by rewrite bool_decide_eq_false_2.
    + by rewrite (fact_not_app _ Happ) in Hf.
Qed.

(** X7.  Whatever the proof, a failing [cexGraph] fails in one of seven
    ways.  It never fails in [arguments], whose assertion [name] has
    always checked just before, nor at the membership assertion on a
    popped node, nor with any other engine error. *)
Theorem cexGraph_failure_modes (fuel : nat) (_proof : z3.expr) (x : exn) :
  cexGraph fuel _proof = Some (Throw x) →
  x ∈ [smtAssertFailed cexGraph_proof_is_app;
       z3_exception Z3_INVALID_ARG;
       smtAssertFailed cexGraph_root_fact_false;
       z3_exception Z3_IOB;
       smtAssertFailed fact_is_app;
       smtAssertFailed name_is_app;
       smtAssertFailed cexGraph_hyper_has_args].
Proof.
  intros Hthrow. rewrite !elem_of_cons.
  apply cexGraph_Throw_inv in Hthrow
    as [Hinit|(st0 & m & st & Hinit & Hm & Hne & Hb)].
  - apply cexGraph_init_Throw_inv in Hinit as [He|[He Hseed]].
    + apply cexGraph_entry_Throw_inv in He
        as [[_ ->]|[[_ ->]|[_ ->]]]; auto.
    + destruct x as [site|code].
      * apply cexGraph_seed_Throw_inv in Hseed as [Ha|(root & _ & Hl)].
        -- apply arg_Throw in Ha as [[_ ?]|[_ ?]]; done.
        -- apply node_label_Throw in Hl as [[_ ->]|[_ ->]]; auto 10.
      * apply (cexGraph_seed_z3_exception _ _ He) in Hseed as [-> _].
        auto 10.
  - destruct (loop_body_Throw_sites _ _ Hne Hb) as [->|[->|[->| ->]]];
      auto 10.
    exfalso. revert Hb.
    assert (Hst : stack_in_nodes st).
    { revert Hm. apply (loop_steps_inv stack_in_nodes).
      - apply loop_body_stack_in_nodes.
      - by eapply cexGraph_init_stack_in_nodes. }
    destruct (proofStack st) as [|X rest] eqn:Hs; [done|].
    intros Hb. destruct (loop_body_Throw_inv _ _ _ _ Hs Hb)
      as [[Hin _]|[(_ & _ & ?)|(c & _ & Hc)]]; [|done|].
    + apply Hin, Hst. rewrite Hs. left.
    + apply node_label_Throw in Hc as [[_ ?]|[_ ?]]; done.
Qed.


(** ** What the loop keeps *)

Lemma premise_visit_nodes_lookup (proofNode child : z3.expr)
    (st st' : state) (k : N) (v : string * list string) :
  nodes (graph st) !! k = Some v →
  premise_visit proofNode child st = Ok st' →
  nodes (graph st') !! k = Some v.
Proof.
  intros Hk Hv.
  destruct (premise_visit_Ok_inv _ _ _ _ Hv) as (_ & _ & g2 & Hg2 & ->).
  cbn [nodes]. case_decide as Hin; [by subst g2|].
  destruct Hg2 as (lbl & _ & ->). cbn [nodes].
  rewrite lookup_insert_ne; [done|]. intros <-. apply Hin. by eexists.
Qed.

Lemma loop_body_nodes_lookup (st st' : state) (k : N)
    (v : string * list string) :
  nodes (graph st) !! k = Some v → proofStack st ≠ [] →
  loop_body st = Ok st' → nodes (graph st') !! k = Some v.
Proof.
  intros Hk Hne Hb.
  destruct (proofStack st) as [|X rest] eqn:Hs; [done|].
  destruct (loop_body_Ok_inv _ _ _ _ Hs Hb) as [_ Hfold].
  revert Hfold.
  apply (foldlM_inv (λ t, nodes (graph t) !! k = Some v)); [|done].
  intros c t t' _ Ht Hv. by eapply premise_visit_nodes_lookup.
Qed.

Lemma loop_steps_nodes_subseteq (n : nat) (st st' : state) :
  loop_steps n st = Some st' → nodes (graph st) ⊆ nodes (graph st').
Proof.
  intros Hn. apply map_subseteq_spec. intros k v Hk.
  revert Hn. apply (loop_steps_inv (λ t, nodes (graph t) !! k = Some v));
    [|done].
  intros t t' Ht Hne Hb. by eapply loop_body_nodes_lookup.
Qed.

Lemma cexGraph_Ok_seed_entry (fuel : nat) (_proof : z3.expr) (g : CexGraph) :
  cexGraph fuel _proof = Some (Ok g) →
  ∃ root lbl,
    z3.arg _proof 0 = Ok root ∧ node_label root = Ok lbl ∧
    nodes g !! z3.id root = Some lbl.
Proof.
  intros Hg.
  destruct (cexGraph_Ok_inv _ _ _ Hg) as (st0 & n & st & Hinit & Hn & _ & <-).
  destruct (cexGraph_init_Ok_inv _ _ Hinit)
    as (_ & root & lbl & Hroot & Hlbl & ->).
  exists root, lbl. split_and!; [done|done|].
  eapply lookup_weaken; [|by eapply loop_steps_nodes_subseteq].
  cbn [graph nodes]. apply lookup_singleton_eq.
Qed.

(** X8.  A node entry, once written, is never overwritten or removed by
    later iterations; so the graph [cexGraph] returns always holds the
    seed, the first argument of the root, under its id and with the label
    of its fact. *)
Theorem cexGraph_keeps_node_entries :
  (∀ n st st',
     loop_steps n st = Some st' → nodes (graph st) ⊆ nodes (graph st')) ∧
  (∀ fuel _proof g,
     cexGraph fuel _proof = Some (Ok g) →
     ∃ root lbl,
       z3.arg _proof 0 = Ok root ∧ node_label root = Ok lbl ∧
       nodes g !! z3.id root = Some lbl).
Proof.
  split.
  - apply loop_steps_nodes_subseteq.
  - apply cexGraph_Ok_seed_entry.
Qed.

Lemma premise_visit_edges_in_nodes (proofNode child : z3.expr)
    (st st' : state) :
  is_Some (nodes (graph st) !! z3.id proofNode) →
  edges_in_nodes (graph st) →
  premise_visit proofNode child st = Ok st' →
  edges_in_nodes (graph st').
Proof.
  intros HX Hst Hv.
  destruct (premise_visit_Ok_inv _ _ _ _ Hv) as (_ & _ & g2 & Hg2 & ->).
  assert (Hg : edges_in_nodes g2 ∧ z3.id proofNode ∈ dom (nodes g2)).
  { case_decide as Hin.
    - subst g2. split; [done|]. by apply elem_of_dom.
    - destruct Hg2 as (lbl & _ & ->). unfold edges_in_nodes in *.
      cbn [nodes edges]. rewrite !dom_insert_L. split.
      + by apply union_mono_l.
      + apply elem_of_union. right. by apply elem_of_dom. }
  destruct Hg as [Hg2' HX2]. unfold edges_in_nodes in *. cbn [nodes edges].
  rewrite dom_insert_L. apply union_subseteq. split; [|done].
  by apply singleton_subseteq_l.
Qed.

Lemma loop_body_edges_in_nodes (st st' : state) :
  edges_in_nodes (graph st) → proofStack st ≠ [] →
  loop_body st = Ok st' → edges_in_nodes (graph st').
Proof.
  intros Hst Hne Hb.
  destruct (proofStack st) as [|X rest] eqn:Hs; [done|].
  destruct (loop_body_Ok_inv _ _ _ _ Hs Hb) as [HX Hfold].
  enough (is_Some (nodes (graph st') !! z3.id X) ∧
          edges_in_nodes (graph st')) as [_ ?]; [done|].
  revert Hfold.
  apply (foldlM_inv (λ t, is_Some (nodes (graph t) !! z3.id X) ∧
                          edges_in_nodes (graph t))); [|done].
  intros c t t' _ [HXt Ht] Hv. split.
  - by eapply premise_visit_nodes_mono.
  - by eapply premise_visit_edges_in_nodes.
Qed.

(** X9.  In the graph [cexGraph] returns, every id that has an edge list
    is a key of the node map: no edge list hangs off a node the graph does
    not have. *)
Theorem cexGraph_edge_sources_are_nodes
    (fuel : nat) (_proof : z3.expr) (g : CexGraph) :
  cexGraph fuel _proof = Some (Ok g) →
  ∀ k l, edges g !! k = Some l → k ∈ dom (nodes g).
Proof.
  intros Hg k l Hk.
  destruct (cexGraph_Ok_inv _ _ _ Hg) as (st0 & n & st & Hinit & Hn & _ & <-).
  assert (Hin : edges_in_nodes (graph st)).
  { revert Hn. apply (loop_steps_inv (λ t, edges_in_nodes (graph t))).
    - apply loop_body_edges_in_nodes.
    - destruct (cexGraph_init_Ok_inv _ _ Hinit)
        as (_ & root & lbl & _ & _ & ->).
      unfold edges_in_nodes. cbn [graph edges]. by rewrite dom_empty_L. }
  apply Hin, elem_of_dom. by eexists.
Qed.

Lemma premise_visit_nodes_eq_visited (proofNode child : z3.expr)
    (st st' : state) :
  nodes_eq_visited st → premise_visit proofNode child st = Ok st' →
  nodes_eq_visited st'.
Proof.
  unfold nodes_eq_visited. intros Hst Hv.
  destruct (premise_visit_Ok_inv _ _ _ _ Hv) as (_ & Hvs & g2 & Hg2 & ->).
  rewrite Hvs. cbn [graph nodes].
  destruct (decide (z3.id child ∈ visited st)) as [Hc|Hc].
  - rewrite decide_True in Hg2; [by subst g2|].
    apply elem_of_dom. by rewrite Hst.
  - rewrite decide_False in Hg2.
    + destruct Hg2 as (lbl & _ & ->). cbn [nodes].
      by rewrite dom_insert_L, Hst.
    + intros Hin%elem_of_dom. by rewrite Hst in Hin.
Qed.

Lemma loop_body_nodes_eq_visited (st st' : state) :
  nodes_eq_visited st → proofStack st ≠ [] → loop_body st = Ok st' →
  nodes_eq_visited st'.
Proof.
  intros Hst Hne Hb.
  destruct (proofStack st) as [|X rest] eqn:Hs; [done|].
  destruct (loop_body_Ok_inv _ _ _ _ Hs Hb) as [_ Hfold].
  revert Hfold. apply (foldlM_inv nodes_eq_visited); [|done].
  intros c t t' _. apply premise_visit_nodes_eq_visited.
Qed.

Lemma popped_ids_length (n : nat) (st st' : state) :
  loop_steps n st = Some st' → length (popped_ids n st) = n.
Proof.
  revert st. induction n as [|n IH]; intros st; cbn [loop_steps popped_ids];
    [done|].
  destruct (proofStack st) as [|X rest]; [done|].
  destruct (loop_body st) as [t|e]; [|done].
  intros Hn. cbn [length]. by rewrite (IH _ Hn).
Qed.

(** X10.  Between iterations the keys of the node map are exactly the
    visited ids (so the two guards of the loop body always agree), and the
    nodes of the graph are the nodes popped so far together with those
    waiting on the stack: a completed extraction has run one iteration per
    node of the graph it returns. *)
Theorem one_iteration_per_node
    (_proof : z3.expr) (st0 st : state) (n : nat) :
  cexGraph_init _proof = Ok st0 → loop_steps n st0 = Some st →
  dom (nodes (graph st)) = visited st ∧
  (n + length (proofStack st))%nat = size (nodes (graph st)) ∧
  (proofStack st = [] → n = size (nodes (graph st))).
Proof.
  intros Hinit Hn.
  assert (Hnv : nodes_eq_visited st).
  { revert Hn. apply (loop_steps_inv nodes_eq_visited).
    - apply loop_body_nodes_eq_visited.
    - destruct (cexGraph_init_Ok_inv _ _ Hinit)
        as (_ & root & lbl & _ & _ & ->).
      unfold nodes_eq_visited. cbn [graph nodes visited].
      by rewrite dom_singleton_L. }
  assert (Hcount :
    (n + length (proofStack st))%nat = size (nodes (graph st))).
  { pose proof (loop_steps_pushed_once n [] st0 st
                  (cexGraph_init_pushed_once _ _ Hinit) Hn) as [Hnd Hiff].
    cbn [app] in Hnd, Hiff.
    rewrite <- size_dom, Hnv.
    assert (visited st =
            list_to_set (popped_ids n st0 ++ map z3.id (proofStack st)))
      as ->.
    { apply set_eq. intros i. by rewrite elem_of_list_to_set, Hiff. }
    rewrite size_list_to_set by done.
    by rewrite length_app, length_map, (popped_ids_length _ _ _ Hn). }
  split_and!; [done|done|].
  intros Hs. rewrite Hs in Hcount. cbn [length] in Hcount. lia.
Qed.

(** ** Seeds without premises *)

Lemma cexGraph_loop_steps_Throw (fuel m : nat) (st0 st : state) (x : exn) :
  loop_steps m st0 = Some st → proofStack st ≠ [] →
  loop_body st = Throw x → (m < fuel)%nat →
  cexGraph_loop fuel st0 = Some (Throw x).
Proof.
  revert fuel st0. induction m as [|m IH]; intros fuel st0;
    cbn [loop_steps].
  - intros [= <-] Hne Hb Hlt. destruct fuel as [|fuel]; [lia|].
    cbn [cexGraph_loop]. destruct (proofStack st0); [done|]. by rewrite Hb.
  - destruct (proofStack st0) as [|X rest] eqn:Hs; [done|].
    destruct (loop_body st0) as [t|e] eqn:Hb0; [|done].
    intros Hm Hne Hb Hlt. destruct fuel as [|fuel]; [lia|].
    cbn [cexGraph_loop]. rewrite Hs, Hb0. apply (IH fuel t); [done..|lia].
Qed.

Lemma cexGraph_loop_Throw_steps (fuel : nat) (st0 : state) (x : exn) :
  cexGraph_loop fuel st0 = Some (Throw x) →
  ∃ m st, (m < fuel)%nat ∧ loop_steps m st0 = Some st ∧
          proofStack st ≠ [] ∧ loop_body st = Throw x.
Proof.
  revert st0. induction fuel as [|fuel IH]; intros st0; cbn [cexGraph_loop].
  - by destruct (proofStack st0).
  - destruct (proofStack st0) as [|X rest] eqn:Hs; [done|].
    destruct (loop_body st0) as [t|e] eqn:Hb.
    + intros Hl. destruct (IH _ Hl) as (m & st & Hm & Hsteps & Hne & Hthrow).
      exists (Datatypes.S m), st. cbn [loop_steps]. rewrite Hs, Hb.
      split_and!; [lia|done..].
    + intros [= ->]. exists 0%nat, st0. rewrite Hs.
      split_and!; [lia|done..].
Qed.

(** X11.  A seed that is no hyper-resolution step, or one with one or two
    arguments (a justification and a conclusion at most), has no premise
    to follow: the graph is the seed alone, its single node, with no edge
    at all. *)
Theorem cexGraph_seed_without_premises
    (fuel : nat) (_proof : z3.expr) (n : N) (d : z3.func_decl)
    (args : list z3.expr) (lbl : string * list string) :
  cexGraph_entry _proof = Ok tt →
  z3.arg _proof 0 = Ok (z3.App n d args) →
  node_label (z3.App n d args) = Ok lbl →
  z3.decl_kind d ≠ z3.Z3_OP_PR_HYPER_RESOLVE ∨
    (1 ≤ length args ≤ 2)%nat →
  cexGraph (Datatypes.S fuel) _proof =
  Some (Ok {| nodes := {[ n := lbl ]}; edges := ∅ |}).
Proof.
  intros He Hroot Hlbl Hshape.
  unfold cexGraph, cexGraph_run, cexGraph_init, cexGraph_seed.
  rewrite He. rsimpl. rewrite Hroot. rsimpl. rewrite Hlbl. rsimpl.
  cbn [z3.id cexGraph_loop proofStack].
  erewrite loop_body_unfold by done. cbn [graph nodes z3.id].
  rewrite (bool_decide_eq_true_2 (is_Some (_ !! n)))
    by (rewrite lookup_singleton_eq; by eexists).
  rsimpl.
  assert (Htrav : traversed (z3.App n d args) = []).
  { unfold traversed. cbn [is_hyper_resolution loop_premises].
    case_bool_decide as Hk; [|done].
    destruct Hshape as [?|Hlen]; [done|].
    destruct args as [|a [|b [|c args]]]; cbn [length] in Hlen;
      [lia|done|done|lia]. }
  assert (Hguard :
    negb (is_hyper_resolution (z3.App n d args)) ||
    negb (bool_decide (z3.num_args (z3.App n d args) = Ok 0)) = true).
  { cbn [is_hyper_resolution z3.num_args].
    case_bool_decide as Hk; [|done]. cbn [negb orb].
    destruct Hshape as [?|Hlen]; [done|].
    rewrite bool_decide_eq_false_2; [done|]. intros [= ?]. lia. }
  rewrite Hguard, Htrav. rsimpl. cbn [foldlM pop proofStack tail graph].
  by destruct fuel.
Qed.

(** X12.  Extraction fails at the assertion [num_args() > 0] exactly when
    the loop pops a hyper-resolution application without arguments: the
    assertion is what keeps the [unsigned] bound [num_args() - 1] of the
    premise loop from wrapping around. *)
Theorem cexGraph_hyper_has_args_iff (fuel : nat) (_proof : z3.expr) :
  cexGraph fuel _proof =
    Some (Throw (smtAssertFailed cexGraph_hyper_has_args)) ↔
  ∃ st0 m st n d rest,
    cexGraph_init _proof = Ok st0 ∧ (m < fuel)%nat ∧
    loop_steps m st0 = Some st ∧
    proofStack st = z3.App n d [] :: rest ∧
    z3.decl_kind d = z3.Z3_OP_PR_HYPER_RESOLVE.
Proof.
  split.
  - unfold cexGraph, cexGraph_run.
    destruct (cexGraph_init _proof) as [st0|e] eqn:Hinit.
    + destruct (cexGraph_loop fuel st0) as [[st|e]|] eqn:Hloop;
        [done| |done].
      intros [= ->].
      destruct (cexGraph_loop_Throw_steps _ _ _ Hloop)
        as (m & st & Hm & Hsteps & Hne & Hb).
      destruct (proofStack st) as [|X rest] eqn:Hs; [done|].
      destruct (loop_body_Throw_inv _ _ _ _ Hs Hb)
        as [[_ ?]|[(Hhr & Hz & _)|(c & _ & Hc)]]; [done| |].
      * destruct X as [n d args| |]; [|done|done].
        cbn [z3.num_args] in Hz. injection Hz as Hz.
        destruct args; [|cbn [length] in Hz; lia].
        exists st0, m, st, n, d, rest. split_and!; try done.
        cbn [is_hyper_resolution] in Hhr. by case_bool_decide.
      * apply node_label_Throw in Hc as [[_ ?]|[_ ?]]; done.
    + intros [= ->].
      apply cexGraph_init_Throw_inv in Hinit as [He|[_ Hseed]].
      * apply cexGraph_entry_Throw_inv in He
          as [[_ ?]|[[_ ?]|[_ ?]]]; done.
      * apply cexGraph_seed_Throw_inv in Hseed as [Ha|(root & _ & Hl)].
        -- apply arg_Throw in Ha as [[_ ?]|[_ ?]]; done.
        -- apply node_label_Throw in Hl as [[_ ?]|[_ ?]]; done.
  - intros (st0 & m & st & n & d & rest & Hinit & Hm & Hsteps & Hs & Hd).
    unfold cexGraph, cexGraph_run. rewrite Hinit.
    assert (Hst : stack_in_nodes st).
    { revert Hsteps. apply (loop_steps_inv stack_in_nodes).
      - apply loop_body_stack_in_nodes.
      - by eapply cexGraph_init_stack_in_nodes. }
    rewrite (cexGraph_loop_steps_Throw fuel m st0 st
               (smtAssertFailed cexGraph_hyper_has_args)); try done.
    + by rewrite Hs.
    + rewrite (loop_body_unfold _ _ _ Hs).
      rewrite (bool_decide_eq_true_2 (is_Some _))
        by (apply Hst; rewrite Hs; left).
      rsimpl. cbn [is_hyper_resolution z3.num_args length].
      rewrite (bool_decide_eq_true_2 (z3.decl_kind d = _)) by done.
      by rewrite (bool_decide_eq_true_2 (Ok _ = Ok 0)).
Qed.


(** ** What the result of [query] tells *)

Lemma query_try_unfold (fuel : nat) (self : Z3CHCInterface)
    (_expr : Expression) :
  query_try fuel self _expr =
  match toZ3Expr (m_z3Interface self) _expr with
  | Throw e => Some (Throw e)
  | Ok z3Expr =>
      match fp_query (m_solver self) z3Expr with
      | Throw e => Some (Throw e)
      | Ok z3.sat =>
          match get_answer (m_solver self) z3Expr with
          | Throw e => Some (Throw e)
          | Ok proof =>
              match cexGraph fuel proof with
              | None => None
              | Some (Throw e) => Some (Throw e)
              | Some (Ok cex) => Some (Ok (SATISFIABLE, cex))
              end
          end
      | Ok z3.unsat => Some (Ok (UNSATISFIABLE, empty_graph))
      | Ok z3.unknown => Some (Ok (UNKNOWN, empty_graph))
      end
  end.
Proof.
  unfold query_try.
  destruct (toZ3Expr (m_z3Interface self) _expr) as [z|e]; rsimpl; [|done].
  destruct (fp_query (m_solver self) z) as [[| |]|e]; by rsimpl.
Qed.

(** Unfold [query] into the outcomes of its collaborators. *)
Ltac query_cases :=
  unfold query; rewrite query_try_unfold;
  repeat (case_match; simplify_eq; cbn [catch_z3_exception] in *;
          try done).

(** X13.  [query] answers [SATISFIABLE] exactly when the goal translates,
    the engine reports it reachable, hands out a proof, and extraction
    from that proof completes; the graph returned is then the extracted
    one, and it is never empty: it holds at least the seed of the proof. *)
Theorem query_satisfiable_iff
    (fuel : nat) (self : Z3CHCInterface) (_expr : Expression)
    (g : CexGraph) :
  (query fuel self _expr = Some (Ok (SATISFIABLE, g)) ↔
   ∃ z3Expr proof,
     toZ3Expr (m_z3Interface self) _expr = Ok z3Expr ∧
     fp_query (m_solver self) z3Expr = Ok z3.sat ∧
     get_answer (m_solver self) z3Expr = Ok proof ∧
     cexGraph fuel proof = Some (Ok g)) ∧
  (query fuel self _expr = Some (Ok (SATISFIABLE, g)) → nodes g ≠ ∅).
Proof.
  assert (Hiff :
    query fuel self _expr = Some (Ok (SATISFIABLE, g)) ↔
    ∃ z3Expr proof,
      toZ3Expr (m_z3Interface self) _expr = Ok z3Expr ∧
      fp_query (m_solver self) z3Expr = Ok z3.sat ∧
      get_answer (m_solver self) z3Expr = Ok proof ∧
      cexGraph fuel proof = Some (Ok g)).
  { split.
    - query_cases. intros [= <-]. eauto 10.
    - intros (z & proof & Ht & Hq & Ha & Hg). unfold query.
      rewrite query_try_unfold, Ht, Hq, Ha, Hg. done. }
  split; [done|].
  intros (z & proof & _ & _ & _ & Hg)%Hiff.
  destruct (cexGraph_Ok_seed_entry _ _ _ Hg) as (root & lbl & _ & _ & Hl).
  intros Hempty. by rewrite Hempty, lookup_empty in Hl.
Qed.

(** X14.  The answer tells the verdict: [UNSATISFIABLE] is answered
    exactly to a goal the engine reports unreachable and [UNKNOWN] exactly
    to one it leaves undetermined, and every answer other than
    [SATISFIABLE] comes with the empty graph. *)
Theorem query_verdict_read_back
    (fuel : nat) (self : Z3CHCInterface) (_expr : Expression)
    (g : CexGraph) :
  (query fuel self _expr = Some (Ok (UNSATISFIABLE, g)) ↔
   g = empty_graph ∧
   ∃ z3Expr, toZ3Expr (m_z3Interface self) _expr = Ok z3Expr ∧
             fp_query (m_solver self) z3Expr = Ok z3.unsat) ∧
  (query fuel self _expr = Some (Ok (UNKNOWN, g)) ↔
   g = empty_graph ∧
   ∃ z3Expr, toZ3Expr (m_z3Interface self) _expr = Ok z3Expr ∧
             fp_query (m_solver self) z3Expr = Ok z3.unknown) ∧
  (∀ res, query fuel self _expr = Some (Ok (res, g)) →
          res ≠ SATISFIABLE → g = empty_graph).
Proof.
  split_and!.
  - split.
    + query_cases. intros [= <-]. eauto.
    + intros (-> & z & Ht & Hq). unfold query.
      by rewrite query_try_unfold, Ht, Hq.
  - split.
    + query_cases. intros [= <-]. eauto.
    + intros (-> & z & Ht & Hq). unfold query.
      by rewrite query_try_unfold, Ht, Hq.
  - intros res. query_cases; by intros [= <- <-].
Qed.

(** X15.  [query] answers [ERROR] exactly when a [z3::exception] was
    thrown: by the translation, by the engine's query, by [get_answer],
    or by the extraction from a reachable goal's proof. *)
Theorem query_error_iff
    (fuel : nat) (self : Z3CHCInterface) (_expr : Expression)
    (g : CexGraph) :
  query fuel self _expr = Some (Ok (ERROR, g)) ↔
  g = empty_graph ∧
  ∃ code,
    toZ3Expr (m_z3Interface self) _expr = Throw (z3_exception code) ∨
    ∃ z3Expr,
      toZ3Expr (m_z3Interface self) _expr = Ok z3Expr ∧
      (fp_query (m_solver self) z3Expr = Throw (z3_exception code) ∨
       fp_query (m_solver self) z3Expr = Ok z3.sat ∧
       (get_answer (m_solver self) z3Expr = Throw (z3_exception code) ∨
        ∃ proof,
          get_answer (m_solver self) z3Expr = Ok proof ∧
          cexGraph fuel proof = Some (Throw (z3_exception code)))).
Proof.
  split.
  - query_cases; intros [= <-]; (split; [done|]); eexists; eauto 10.
  - intros (-> & code & [Ht|(z & Ht & [Hq|(Hq & [Ha|(proof & Ha & Hg)])])]);
      unfold query; rewrite query_try_unfold, Ht; try done;
      rewrite Hq; try done; rewrite Ha; try done.
    by rewrite Hg.
Qed.

(** X16.  No [z3::exception] leaves [query], and what does leave it is an
    assertion failure raised by the translation, the engine calls, or the
    extraction, passed on unchanged: a contract violation is never
    answered with [ERROR]. *)
Theorem query_throws_only_assertions
    (fuel : nat) (self : Z3CHCInterface) (_expr : Expression) (x : exn) :
  query fuel self _expr = Some (Throw x) ↔
  ∃ site,
    x = smtAssertFailed site ∧
    (toZ3Expr (m_z3Interface self) _expr = Throw x ∨
     ∃ z3Expr,
       toZ3Expr (m_z3Interface self) _expr = Ok z3Expr ∧
       (fp_query (m_solver self) z3Expr = Throw x ∨
        fp_query (m_solver self) z3Expr = Ok z3.sat ∧
        (get_answer (m_solver self) z3Expr = Throw x ∨
         ∃ proof,
           get_answer (m_solver self) z3Expr = Ok proof ∧
           cexGraph fuel proof = Some (Throw x)))).
Proof.
  split.
  - query_cases; intros [= <-]; eexists; (split; [done|]); eauto 10.
  - intros (site & -> & [Ht|(z & Ht & [Hq|(Hq & [Ha|(proof & Ha & Hg)])])]);
      unfold query; rewrite query_try_unfold, Ht; try done;
      rewrite Hq; try done; rewrite Ha; try done.
    by rewrite Hg.
Qed.


(** ** Which nodes have an edge list *)

Lemma premise_visit_edges_dom (proofNode child : z3.expr) (st st' : state) :
  premise_visit proofNode child st = Ok st' →
  dom (edges (graph st)) ⊆ dom (edges (graph st')) ∧
  z3.id proofNode ∈ dom (edges (graph st')) ∧
  ∀ k, k ∈ dom (nodes (graph st')) → k ∉ dom (nodes (graph st)) →
       k ∈ dom (edges (graph st')).
Proof.
  intros Hv.
  destruct (premise_visit_Ok_inv _ _ _ _ Hv) as (_ & _ & g2 & Hg2 & ->).
  cbn [nodes edges]. rewrite dom_insert_L.
  case_decide as Hin.
  - subst g2. split_and!.
    + apply union_subseteq_r.
    + apply elem_of_union. left. by apply elem_of_singleton.
    + intros k Hk Hnk. done.
  - destruct Hg2 as (lbl & _ & ->). cbn [nodes edges].
    rewrite !dom_insert_L. split_and!.
    + intros k Hk. rewrite !elem_of_union. auto.
    + apply elem_of_union. left. by apply elem_of_singleton.
    + intros k [Hk|Hk]%elem_of_union Hnk; [|done].
      rewrite !elem_of_union. auto.
Qed.

Lemma loop_body_edges_dom (st st' : state) (keep : N) :
  proofStack st ≠ [] → loop_body st = Ok st' →
  dom (edges (graph st)) ⊆ dom (edges (graph st')) ∧
  ((∀ k, k ∈ dom (nodes (graph st)) → k ≠ keep →
         k ∈ dom (edges (graph st))) →
   ∀ k, k ∈ dom (nodes (graph st')) → k ≠ keep →
        k ∈ dom (edges (graph st'))).
Proof.
  intros Hne Hb.
  destruct (proofStack st) as [|X rest] eqn:Hs; [done|].
  destruct (loop_body_Ok_inv _ _ _ _ Hs Hb) as [_ Hfold].
  revert Hfold.
  apply (foldlM_inv (λ t,
    dom (edges (graph st)) ⊆ dom (edges (graph t)) ∧
    ((∀ k, k ∈ dom (nodes (graph st)) → k ≠ keep →
           k ∈ dom (edges (graph st))) →
     ∀ k, k ∈ dom (nodes (graph t)) → k ≠ keep →
          k ∈ dom (edges (graph t))))); [|done].
  intros c t t' _ [Hsub Hcov] Hv.
  destruct (premise_visit_edges_dom _ _ _ _ Hv) as (Hsub' & _ & Hnew).
  split; [by etrans|].
  intros Hst k Hk Hkeep.
  destruct (decide (k ∈ dom (nodes (graph t)))) as [Hkt|Hkt].
  - by apply Hsub', Hcov.
  - by apply Hnew.
Qed.

(** X17.  In the graph [cexGraph] returns, every node other than the
    seed has an edge list, empty for a node without premises.  The seed
    has one exactly when the loop fetched a premise for it: a seed without
    premises is a key of the node map only. *)
Theorem cexGraph_edge_list_keys
    (fuel : nat) (_proof root : z3.expr) (g : CexGraph) :
  cexGraph fuel _proof = Some (Ok g) →
  z3.arg _proof 0 = Ok root →
  (∀ k, k ∈ dom (nodes g) → k ≠ z3.id root → k ∈ dom (edges g)) ∧
  (z3.id root ∈ dom (edges g) ↔ traversed root ≠ []).
Proof.
  intros Hg Hroot.
  destruct (cexGraph_Ok_inv _ _ _ Hg) as (st0 & n & st & Hinit & Hn & Hs & <-).
  destruct (cexGraph_init_Ok_inv _ _ Hinit)
    as (_ & root' & lbl & Hroot' & Hlbl & ->).
  rewrite Hroot in Hroot'. injection Hroot' as <-.
  split.
  - revert Hn.
    apply (loop_steps_inv (λ t,
      ∀ k, k ∈ dom (nodes (graph t)) → k ≠ z3.id root →
           k ∈ dom (edges (graph t)))).
    + intros t t' Ht Hne Hb.
      by apply (loop_body_edges_dom t t' (z3.id root) Hne Hb).
    + cbn [graph nodes edges]. intros k Hk Hne.
      rewrite dom_singleton_L in Hk. by apply elem_of_singleton in Hk.
  - destruct n as [|n]; cbn [loop_steps] in Hn.
    { injection Hn as <-. done. }
    cbn [proofStack] in Hn.
    destruct (loop_body _) as [st1|e] eqn:Hb; [|done].
    eapply loop_body_Ok_inv in Hb as [Hin Hfold]; [|reflexivity].
    pose proof (foldlM_premise_visit_edges _ _ (pop _) _ Hin Hfold) as Hedges.
    cbn [pop graph edges_at edges] in Hedges.
    unfold edges_at in Hedges at 2. cbn [edges] in Hedges.
    rewrite lookup_empty in Hedges. cbn [default app] in Hedges.
    split.
    + intros Hk Htrav. rewrite Htrav in Hfold. cbn [foldlM] in Hfold.
      injection Hfold as <-.
      destruct n as [|n]; cbn [loop_steps pop proofStack tail] in Hn;
        [|done].
      injection Hn as <-. cbn [pop graph edges] in Hk.
      by rewrite dom_empty_L in Hk.
    + intros Htrav.
      assert (Hk1 : z3.id root ∈ dom (edges (graph st1))).
      { apply elem_of_dom. unfold edges_at in Hedges.
        destruct (edges (graph st1) !! z3.id root) as [l|]; [by eexists|].
        cbn [default] in Hedges. destruct (traversed root); [done|].
        discriminate. }
      revert Hn.
      apply (loop_steps_inv (λ t, z3.id root ∈ dom (edges (graph t))));
        [|done].
      intros t t' Ht Hne Hb'.
      destruct (loop_body_edges_dom t t' (z3.id root) Hne Hb') as [Hsub _].
      by apply Hsub.
Qed.


(** ** The shape of the extracted graph *)

Lemma expr_size_arg (n : N) (d : z3.func_decl) (args : list z3.expr)
    (c : z3.expr) :
  c ∈ args → (expr_size c < expr_size (z3.App n d args))%nat.
Proof.
  intros Hc. cbn [expr_size]. apply Nat.lt_succ_r.
  induction Hc as [c args|c a args _ IH]; simpl; lia.
Qed.

Lemma premises_args (x c : z3.expr) :
  c ∈ premises x → ∃ n d args, x = z3.App n d args ∧ c ∈ args.
Proof.
  destruct x as [n d args| |]; cbn [premises]; [|by intros ?%elem_of_nil..].
  case_bool_decide; [|by intros ?%elem_of_nil].
  intros Hc%subseteq_take%subseteq_drop. by exists n, d, args.
Qed.

(** The graph of a proof DAG, for the lemmas of this part. *)
Lemma cexGraph_proof_dag_graph
    (fuel : nat) (_proof r : z3.expr) (g : CexGraph) :
  z3.arg _proof 0 = Ok r → proof_dag r →
  cexGraph fuel _proof = Some (Ok g) →
  (∀ i, i ∈ dom (nodes g) ↔ ∃ x, reach r x ∧ z3.id x = i) ∧
  (∀ x, reach r x → edges_at g (z3.id x) = map z3.id (premises x)).
Proof.
  intros Hr Hdag Hg.
  destruct (cexGraph_Ok_inv _ _ _ Hg) as (st0 & n & st & Hinit & Hn & Hs & <-).
  assert (Hinv : traversal_inv r None st).
  { revert Hn. apply (loop_steps_inv (traversal_inv r None)).
    - by apply traversal_inv_loop_body.
    - by eapply traversal_inv_init. }
  pose proof (traversal_inv_final r st Hinv Hs) as Hfinal.
  split.
  - intros i. rewrite (inv_nodes_visited _ _ _ Hinv). split.
    + apply (inv_visited_reach _ _ _ Hinv).
    + intros (x & Hx & <-). by apply Hfinal.
  - intros x Hx. by apply Hfinal.
Qed.

(** X18.  Every edge of the graph extracted from a proof DAG leads from a
    proof node to one of its premises, a strictly smaller term: the graph
    has no self-loop and no cycle. *)
Theorem cexGraph_edges_descend
    (fuel : nat) (_proof r : z3.expr) (g : CexGraph) :
  z3.arg _proof 0 = Ok r → proof_dag r →
  cexGraph fuel _proof = Some (Ok g) →
  (∀ x y, reach r x → reach r y →
          z3.id y ∈ edges_at g (z3.id x) →
          y ∈ premises x ∧ (expr_size y < expr_size x)%nat) ∧
  (∀ x y, reach r x → graph_path g (z3.id x) (z3.id y) → reach r y →
          (expr_size y ≤ expr_size x)%nat ∧
          (z3.id x ∈ edges_at g (z3.id y) → False)).
Proof.
  intros Hr Hdag Hg.
  destruct (cexGraph_proof_dag_graph _ _ _ _ Hr Hdag Hg) as [Hkeys Hnodes].
  assert (Hedge : ∀ x y, reach r x → reach r y →
    z3.id y ∈ edges_at g (z3.id x) →
    y ∈ premises x ∧ (expr_size y < expr_size x)%nat).
  { intros x y Hx Hy Hin. rewrite (Hnodes x Hx) in Hin.
    apply list_elem_of_fmap in Hin as (c & Hid & Hc).
    assert (c = y) as ->.
    { apply (proof_dag_id_inj r Hdag);
        [exact (reach_premise r x c Hx Hc)|done|by symmetry]. }
    split; [done|].
    destruct (premises_args _ _ Hc) as (n & d & args & -> & Hargs).
    by apply expr_size_arg. }
  assert (Hpath : ∀ x k, reach r x → graph_path g (z3.id x) k →
    ∃ y, reach r y ∧ z3.id y = k ∧ (expr_size y ≤ expr_size x)%nat).
  { intros x k Hx Hp. induction Hp as [|c k' _ IH Hin].
    - by exists x.
    - destruct IH as (z & Hz & <- & Hle).
      rewrite (Hnodes z Hz) in Hin.
      apply list_elem_of_fmap in Hin as (y & -> & Hy).
      exists y. split_and!; [by eapply reach_premise|done|].
      destruct (premises_args _ _ Hy) as (n & d & args & -> & Hargs).
      pose proof (expr_size_arg n d args y Hargs). lia. }
  split; [done|].
  intros x y Hx Hp Hy.
  destruct (Hpath x _ Hx Hp) as (y' & Hy' & Hid & Hle).
  assert (y' = y) as -> by (by apply (proof_dag_id_inj r Hdag)).
  split; [done|].
  intros Hback. destruct (Hedge y x Hy Hx Hback) as [_ Hlt]. lia.
Qed.

(** X19.  The graph extracted from a proof DAG is rooted at the seed:
    every key of its node map is reached from the id of the seed along
    edges. *)
Theorem cexGraph_rooted_at_seed
    (fuel : nat) (_proof r : z3.expr) (g : CexGraph) :
  z3.arg _proof 0 = Ok r → proof_dag r →
  cexGraph fuel _proof = Some (Ok g) →
  ∀ k, k ∈ dom (nodes g) → graph_path g (z3.id r) k.
Proof.
  intros Hr Hdag Hg k Hk.
  destruct (cexGraph_proof_dag_graph _ _ _ _ Hr Hdag Hg) as [Hkeys Hnodes].
  apply Hkeys in Hk as (x & Hx & <-).
  induction Hx as [|x c Hx IH Hc]; [constructor|].
  apply (graph_path_edge g _ (z3.id x)); [done|].
  rewrite (Hnodes x Hx). apply list_elem_of_fmap. by exists c.
Qed.

End Z3CHCInterface.

(** * The worked example, run *)

Example ex_cexGraph :
  cexGraph ex_to_string 10 ex_proof = Some (Ok ex_graph).
Proof. vm_compute. reflexivity. Qed.

Example ex_popped_ids :
  popped_ids ex_to_string 10 ex_state_init = [6%N; 5%N; 3%N; 4%N].
Proof. vm_compute. reflexivity. Qed.

Example ex_query_sat :
  query ex_to_string 10 ex_interface (ex_goal "reach") =
  Some (Ok (SATISFIABLE, ex_graph)).
Proof. vm_compute. reflexivity. Qed.

(** A reachable verdict whose answer is the bare constant [false]: the
    out-of-range access of [cexGraph] surfaces as [ERROR]. *)
Example ex_query_sat_bare_false :
  query ex_to_string 10
    {| m_z3Interface := m_z3Interface ex_interface;
       m_context := ex_context;
       m_solver := {| rules := []; fp_query := ex_fp_query;
                      get_answer := λ _, Ok ex_false |} |}
    (ex_goal "reach") =
  Some (Ok (ERROR, empty_graph)).
Proof. vm_compute. reflexivity. Qed.

(** The same verdict answered by a proof whose fact is a quantified
    formula: the malformed shape is not a fatal contract violation, the
    engine's exception from [decl] is caught and reported as [ERROR]. *)
Example ex_query_sat_quantified_fact :
  query ex_to_string 10
    {| m_z3Interface := m_z3Interface ex_interface;
       m_context := ex_context;
       m_solver := {| rules := []; fp_query := ex_fp_query;
                      get_answer := λ _, Ok ex_rule |} |}
    (ex_goal "reach") =
  Some (Ok (ERROR, empty_graph)).
Proof. vm_compute. reflexivity. Qed.

Lemma ex_reach_cases (x : z3.expr) :
  reach ex_Q x → x ∈ [ex_Q; ex_A; ex_B; ex_P].
Proof.
  intros Hx. induction Hx as [|x c _ IH Hc]; [left|].
  repeat (apply elem_of_cons in IH as [->|IH]);
    [..|by apply elem_of_nil in IH];
    vm_compute in Hc;
    repeat (apply elem_of_cons in Hc as [->|Hc]);
    try (by apply elem_of_nil in Hc);
    apply list_elem_of_In; vm_compute; tauto.
Qed.

Lemma ex_proof_dag : proof_dag ex_Q.
Proof.
  split.
  - intros a b Ha%ex_reach_cases Hb%ex_reach_cases Hid.
    repeat (apply elem_of_cons in Ha as [->|Ha]);
      [..|by apply elem_of_nil in Ha];
      repeat (apply elem_of_cons in Hb as [->|Hb]);
      try (by apply elem_of_nil in Hb);
      first [reflexivity|vm_compute in Hid; discriminate].
  - intros x Hx%ex_reach_cases.
    repeat (apply elem_of_cons in Hx as [->|Hx]);
      [..|by apply elem_of_nil in Hx]; reflexivity.
Qed.

Lemma ex_twice_reach_cases (x : z3.expr) :
  reach ex_Q_twice x → x ∈ [ex_Q_twice; ex_A_twice; ex_B; ex_P].
Proof.
  intros Hx. induction Hx as [|x c _ IH Hc]; [left|].
  repeat (apply elem_of_cons in IH as [->|IH]);
    [..|by apply elem_of_nil in IH];
    vm_compute in Hc;
    repeat (apply elem_of_cons in Hc as [->|Hc]);
    try (by apply elem_of_nil in Hc);
    apply list_elem_of_In; vm_compute; tauto.
Qed.

Lemma ex_twice_proof_dag : proof_dag ex_Q_twice.
Proof.
  split.
  - intros a b Ha%ex_twice_reach_cases Hb%ex_twice_reach_cases Hid.
    repeat (apply elem_of_cons in Ha as [->|Ha]);
      [..|by apply elem_of_nil in Ha];
      repeat (apply elem_of_cons in Hb as [->|Hb]);
      try (by apply elem_of_nil in Hb);
      first [reflexivity|vm_compute in Hid; discriminate].
  - intros x Hx%ex_twice_reach_cases.
    repeat (apply elem_of_cons in Hx as [->|Hx]);
      [..|by apply elem_of_nil in Hx]; reflexivity.
Qed.

Lemma cexGraph_no_dangling_edges_witness :
  cexGraph ex_to_string 10 ex_proof = Some (Ok ex_graph) ∧
  ∀ k l, edges ex_graph !! k = Some l → ∀ c, c ∈ l → c ∈ dom (nodes ex_graph).
Proof.
  split; [vm_compute; reflexivity|].
  apply (cexGraph_no_dangling_edges ex_to_string 10 ex_proof).
  vm_compute. reflexivity.
Defined.

Lemma fact_last_argument_witness :
  fact ex_A = Ok (ex_fact 22 "S") ∧
  z3.arg ex_A (3 - 1) = Ok (ex_fact 22 "S").
Proof.
  destruct (fact_last_argument 4
              (z3.mk_func_decl z3.Z3_OP_PR_HYPER_RESOLVE "hyper-res")
              [ex_rule; ex_P; ex_fact 22 "S"]) as [_ Hlast];
    [reflexivity|].
  destruct (Hlast (ex_fact 22 "S")) as (Hfact & _ & Harg); [reflexivity|].
  split; [exact Hfact|exact Harg].
Defined.

Lemma addRule_quantifies_over_constants_witness :
  ∃ self',
    addRule ex_interface (ex_goal "R(x) :- x > 0") "rule_1" = Ok self' ∧
    rules (m_solver self') =
      [(z3.forall_const ex_context (map snd ex_constants)
          (z3.App 50
             (z3.mk_func_decl z3.Z3_OP_UNINTERPRETED "R(x) :- x > 0") []),
        "rule_1")].
Proof.
  destruct (addRule_quantifies_over_constants ex_interface
              (ex_goal "R(x) :- x > 0") "rule_1"
              (z3.App 50
                 (z3.mk_func_decl z3.Z3_OP_UNINTERPRETED "R(x) :- x > 0") []))
    as (self' & added & Hadd & _ & Hrules & _ & _ & Hq).
  - reflexivity.
  - exists self'. split; [exact Hadd|].
    rewrite Hrules, Hq by discriminate. reflexivity.
Defined.

Lemma query_verdict_mapping_witness :
  query ex_to_string 10 ex_interface (ex_goal "safe") =
    Some (Ok (UNSATISFIABLE, empty_graph)) ∧
  query ex_to_string 10 ex_interface (ex_goal "hard") =
    Some (Ok (UNKNOWN, empty_graph)) ∧
  query ex_to_string 10 ex_interface (ex_goal "ill-sorted") =
    Some (Ok (ERROR, empty_graph)) ∧
  query ex_to_string 10 ex_interface (ex_goal "crash") =
    Some (Ok (ERROR, empty_graph)).
Proof.
  split_and!.
  - eapply (proj1 (query_verdict_mapping ex_to_string 10 ex_interface
                     (ex_goal "safe"))); reflexivity.
  - eapply (proj1 (proj2 (query_verdict_mapping ex_to_string 10 ex_interface
                            (ex_goal "hard")))); reflexivity.
  - eapply (proj1 (proj2 (proj2 (query_verdict_mapping ex_to_string 10
                                    ex_interface (ex_goal "ill-sorted")))));
      reflexivity.
  - eapply (proj1 (proj2 (proj2 (proj2 (query_verdict_mapping ex_to_string 10
                                    ex_interface (ex_goal "crash"))))));
      reflexivity.
Defined.

Lemma cexGraph_terminates_pushing_once_witness :
  (∃ res, cexGraph ex_to_string (fuel_bound ex_proof + 5) ex_proof = Some res ∧
          cexGraph ex_to_string (fuel_bound ex_proof) ex_proof = Some res) ∧
  NoDup (popped_ids ex_to_string 4 ex_state_init ++
         map z3.id (proofStack ex_state_final)) ∧
  (4 ≤ fuel_bound ex_proof)%nat.
Proof.
  destruct (cexGraph_terminates_pushing_once ex_to_string ex_proof)
    as (Hterm & _ & Hrun).
  split; [exact (Hterm 5%nat)|].
  apply (Hrun ex_state_init 4%nat ex_state_final);
    vm_compute; reflexivity.
Defined.

Lemma hyper_resolution_premise_edges_witness :
  ∃ st',
    loop_body ex_to_string ex_state_init = Ok st' ∧
    edges_at (graph st') 6 = [4%N; 5%N].
Proof.
  assert (Hbody : ∃ st', loop_body ex_to_string ex_state_init = Ok st').
  { eexists. vm_compute. reflexivity. }
  destruct Hbody as [st' Hbody]. exists st'. split; [exact Hbody|].
  destruct (hyper_resolution_premise_edges ex_to_string ex_state_init st' 6
              (z3.mk_func_decl z3.Z3_OP_PR_HYPER_RESOLVE "hyper-res")
              [ex_rule; ex_A; ex_B; ex_fact 24 "query"] [])
    as (children & Hlen & Hpos & _ & Hedges);
    [reflexivity|reflexivity|reflexivity|exact Hbody|].
  rewrite Hedges.
  destruct (Hpos 0%nat) as [H0 _]; [simpl; lia|].
  destruct (Hpos 1%nat) as [H1 _]; [simpl; lia|].
  destruct children as [|c0 [|c1 [|c2 children]]]; try discriminate.
  simpl in H0, H1. injection H0 as ->. injection H1 as ->. reflexivity.
Defined.

Lemma popped_node_in_node_map_witness :
  (∀ x, x ∈ proofStack ex_state_init →
        z3.id x ∈ dom (nodes (graph ex_state_init))) ∧
  loop_body ex_to_string ex_state_init ≠
    Throw (smtAssertFailed cexGraph_popped_in_nodes).
Proof.
  apply (proj1 (popped_node_in_node_map ex_to_string ex_proof)
           ex_state_init 0%nat ex_state_init); reflexivity.
Defined.

Lemma argument_accesses_in_range_witness :
  cexGraph_entry ex_false = Ok tt ∧
  z3.arg ex_false 0 = Throw (z3_exception Z3_IOB) ∧
  cexGraph ex_to_string 10 ex_false = Some (Throw (z3_exception Z3_IOB)).
Proof.
  apply (proj2 (argument_accesses_in_range ex_to_string 10 0
                  (z3.mk_func_decl z3.Z3_OP_FALSE "false"))).
  reflexivity.
Defined.

Lemma shared_premise_one_edge_per_position_witness :
  cexGraph ex_to_string 10 ex_proof_twice = Some (Ok ex_graph_twice) ∧
  (∃ lbl, node_label ex_to_string ex_P = Ok lbl ∧
          nodes ex_graph_twice !! 3%N = Some lbl) ∧
  z3.id ex_A_twice ≠ z3.id ex_B ∧
  (∀ X, X = ex_A_twice ∨ X = ex_B →
        (∀ i, edges_at ex_graph_twice (z3.id X) !! i = Some 3%N ↔
              premises X !! i = Some ex_P) ∧
        edge_count ex_graph_twice (z3.id X) 3 = premise_positions X ex_P ∧
        (1 ≤ premise_positions X ex_P)%nat ∧
        (occurs_once ex_P (premises X) →
         edge_count ex_graph_twice (z3.id X) 3 = 1%nat)) ∧
  ((∀ x, reach ex_Q_twice x → ex_P ∈ premises x →
         x = ex_A_twice ∨ x = ex_B) →
   (∀ k, k ≠ 4%N → k ≠ 5%N → 3%N ∉ edges_at ex_graph_twice k) ∧
   edges_into ex_graph_twice 3 =
   (premise_positions ex_A_twice ex_P + premise_positions ex_B ex_P)%nat) ∧
  occurs_once 3%N (popped_ids ex_to_string 10 ex_state_init_twice).
Proof.
  apply (shared_premise_one_edge_per_position ex_to_string 10 ex_proof_twice
           ex_Q_twice ex_A_twice ex_B ex_P
           ex_state_init_twice ex_state_final_twice).
  - reflexivity.
  - exact ex_twice_proof_dag.
  - vm_compute. reflexivity.
  - vm_compute. reflexivity.
  - apply (reach_premise ex_Q_twice ex_Q_twice); [constructor|].
    apply list_elem_of_In. vm_compute. tauto.
  - apply (reach_premise ex_Q_twice ex_Q_twice); [constructor|].
    apply list_elem_of_In. vm_compute. tauto.
  - discriminate.
  - apply list_elem_of_In. vm_compute. tauto.
  - apply list_elem_of_In. vm_compute. tauto.
Defined.

(** The run on [ex_proof_twice]: two distinct hyper-resolution steps
    share the premise [ex_P], and the step that lists it at two positions
    gets two edges to it, so three edges lead into the one node of
    [ex_P]. *)
Lemma shared_premise_listed_twice_counterexample :
  cexGraph ex_to_string 10 ex_proof_twice = Some (Ok ex_graph_twice) ∧
  z3.arg ex_proof_twice 0 = Ok ex_Q_twice ∧
  proof_dag ex_Q_twice ∧
  reach ex_Q_twice ex_A_twice ∧ reach ex_Q_twice ex_B ∧
  ex_A_twice ≠ ex_B ∧
  is_hyper_resolution ex_A_twice = true ∧
  is_hyper_resolution ex_B = true ∧
  ex_P ∈ premises ex_A_twice ∧ ex_P ∈ premises ex_B ∧
  (∃ lbl, nodes ex_graph_twice !! z3.id ex_P = Some lbl) ∧
  edges_at ex_graph_twice (z3.id ex_A_twice) = [3%N; 3%N] ∧
  edges_at ex_graph_twice (z3.id ex_B) = [3%N] ∧
  edge_count ex_graph_twice (z3.id ex_A_twice) (z3.id ex_P) = 2%nat ∧
  edges_into ex_graph_twice (z3.id ex_P) = 3%nat ∧
  ¬ occurs_once (z3.id ex_P) (edges_at ex_graph_twice (z3.id ex_A_twice)).
Proof.
  split_and!.
  - vm_compute. reflexivity.
  - reflexivity.
  - exact ex_twice_proof_dag.
  - apply (reach_premise ex_Q_twice ex_Q_twice); [constructor|].
    apply list_elem_of_In. vm_compute. tauto.
  - apply (reach_premise ex_Q_twice ex_Q_twice); [constructor|].
    apply list_elem_of_In. vm_compute. tauto.
  - discriminate.
  - reflexivity.
  - reflexivity.
  - apply list_elem_of_In. vm_compute. tauto.
  - apply list_elem_of_In. vm_compute. tauto.
  - by eexists.
  - reflexivity.
  - reflexivity.
  - vm_compute. reflexivity.
  - vm_compute. reflexivity.
  - intros Honce%occurrences_occurs_once. vm_compute in Honce. discriminate.
Qed.

(** * Further properties, run on the examples *)

Example ex_cexGraph_quantified_fact :
  cexGraph ex_to_string 10 ex_rule = Some (Throw (z3_exception Z3_INVALID_ARG)).
Proof. vm_compute. reflexivity. Qed.

Lemma cexGraph_failure_modes_witness :
  z3_exception Z3_INVALID_ARG ∈
    [smtAssertFailed cexGraph_proof_is_app;
     z3_exception Z3_INVALID_ARG;
     smtAssertFailed cexGraph_root_fact_false;
     z3_exception Z3_IOB;
     smtAssertFailed fact_is_app;
     smtAssertFailed name_is_app;
     smtAssertFailed cexGraph_hyper_has_args].
Proof.
  apply (cexGraph_failure_modes ex_to_string 10 ex_rule).
  vm_compute. reflexivity.
Defined.

Lemma cexGraph_edge_sources_are_nodes_witness :
  cexGraph ex_to_string 10 ex_proof = Some (Ok ex_graph) ∧
  ∀ k l, edges ex_graph !! k = Some l → k ∈ dom (nodes ex_graph).
Proof.
  split; [vm_compute; reflexivity|].
  apply (cexGraph_edge_sources_are_nodes ex_to_string 10 ex_proof).
  vm_compute. reflexivity.
Defined.

Lemma one_iteration_per_node_witness :
  dom (nodes (graph ex_state_final)) = visited ex_state_final ∧
  (4 + length (proofStack ex_state_final))%nat =
    size (nodes (graph ex_state_final)) ∧
  (proofStack ex_state_final = [] →
   4%nat = size (nodes (graph ex_state_final))).
Proof.
  apply (one_iteration_per_node ex_to_string ex_proof ex_state_init
           ex_state_final 4); vm_compute; reflexivity.
Defined.

Lemma cexGraph_seed_without_premises_witness :
  cexGraph ex_to_string 1 ex_fact_proof =
  Some (Ok {| nodes := {[ 3%N := ("R", ["0"]) ]}; edges := ∅ |}).
Proof.
  apply (cexGraph_seed_without_premises ex_to_string 0 ex_fact_proof 3
           (z3.mk_func_decl z3.Z3_OP_PR_HYPER_RESOLVE "hyper-res")
           [ex_rule; ex_fact 21 "R"]).
  - reflexivity.
  - reflexivity.
  - reflexivity.
  - right. simpl. lia.
Defined.

Lemma cexGraph_extracts_proof_dag_witness :
  (∀ i, i ∈ dom (nodes ex_graph) ↔ ∃ x, reach ex_Q x ∧ z3.id x = i) ∧
  (∀ x, reach ex_Q x →
        (∃ lbl, node_label ex_to_string x = Ok lbl ∧
                nodes ex_graph !! z3.id x = Some lbl) ∧
        edges_at ex_graph (z3.id x) = map z3.id (premises x)).
Proof.
  apply (cexGraph_extracts_proof_dag ex_to_string 10 ex_proof ex_Q ex_graph).
  - reflexivity.
  - exact ex_proof_dag.
  - vm_compute. reflexivity.
Defined.

Lemma cexGraph_edge_list_keys_witness :
  (∀ k, k ∈ dom (nodes ex_graph) → k ≠ z3.id ex_Q →
        k ∈ dom (edges ex_graph)) ∧
  (z3.id ex_Q ∈ dom (edges ex_graph) ↔ traversed ex_Q ≠ []).
Proof.
  apply (cexGraph_edge_list_keys ex_to_string 10 ex_proof ex_Q ex_graph).
  - vm_compute. reflexivity.
  - reflexivity.
Defined.

Lemma cexGraph_edges_descend_witness :
  (∀ x y, reach ex_Q x → reach ex_Q y →
          z3.id y ∈ edges_at ex_graph (z3.id x) →
          y ∈ premises x ∧ (expr_size y < expr_size x)%nat) ∧
  (∀ x y, reach ex_Q x → graph_path ex_graph (z3.id x) (z3.id y) →
          reach ex_Q y →
          (expr_size y ≤ expr_size x)%nat ∧
          (z3.id x ∈ edges_at ex_graph (z3.id y) → False)).
Proof.
  apply (cexGraph_edges_descend ex_to_string 10 ex_proof ex_Q ex_graph).
  - reflexivity.
  - exact ex_proof_dag.
  - vm_compute. reflexivity.
Defined.

Lemma cexGraph_rooted_at_seed_witness :
  cexGraph ex_to_string 10 ex_proof = Some (Ok ex_graph) ∧
  ∀ k, k ∈ dom (nodes ex_graph) → graph_path ex_graph (z3.id ex_Q) k.
Proof.
  split; [vm_compute; reflexivity|].
  apply (cexGraph_rooted_at_seed ex_to_string 10 ex_proof ex_Q ex_graph).
  - reflexivity.
  - exact ex_proof_dag.
  - vm_compute. reflexivity.
Defined.
